(** * Emergency-room triage system: a shallow embedding of [Triage.c]

    The C program keeps the waiting patients in an array-backed binary
    min-heap ordered by [priority_level], a bounded log of the patients
    already treated, and a counter issuing patient identifiers.

    Conventions of the embedding.
    - A C [int] is a [Z]; every arithmetic operation the program performs
      on an [int] is followed by [int_wrap], the reduction to the 32-bit
      two's-complement range.
    - A [Patient*] array obtained from [malloc] is a [list Patient] whose
      length is the number of allocated slots; [arr_get] and [arr_set]
      read and write one slot.  An access outside the allocation reads
      [uninit] and writes nothing.
    - A function taking a pointer to a struct it mutates returns the new
      struct.  What the program prints is returned as a list of [Output]
      events, one constructor for each [printf] site.
    - [name] is a [string]; the caller keeps labels below the 60 bytes of
      the [char name[60]] field. *)

From Stdlib Require Import ZArith Lia String List Permutation Sorted.
From stdpp Require Import base numbers list.
From Equations Require Import Equations.

Local Open Scope Z_scope.

(** ** Machine integers *)

Definition INT_MAX : Z := 2147483647.
Definition INT_MIN : Z := -2147483648.

Definition int_wrap (z : Z) : Z :=
  (z + 2147483648) mod 4294967296 - 2147483648.

(** C integer division truncates toward zero. *)
Definition int_div (a b : Z) : Z := int_wrap (Z.quot a b).

(** ** Data model *)

Record Patient : Type := {
  name : string;
  priority_level : Z;
  patient_id : Z
}.

Record MinHeap : Type := {
  patients : list Patient;
  size : Z;
  capacity : Z
}.

Record TreatedLog : Type := {
  log_patients : list Patient;
  log_size : Z;
  log_capacity : Z
}.

Record TriageSystem : Type := {
  waiting_list : MinHeap;
  treated_log : TreatedLog;
  next_patient_id : Z
}.

(** One constructor for each [printf] call of the program, carrying the
    values the format string prints. *)
Inductive Output : Type :=
| ErrWaitingListFull      (* "Error: Waiting list is full. Cannot add ..." *)
| NewPatient (nm : string) (priority : Z)
                          (* "NEW PATIENT: '%s' added to waiting list ..." *)
| NoPatientsToTreat       (* "SYSTEM: No patients in the waiting list ..." *)
| Treating (p : Patient)  (* "TREATING NEXT PATIENT:", then its "ID: %d, ..." *)
| WarnLogFull             (* "Warning: Treated log is full." *)
| WaitingListHeader
| WaitingListEmpty
| WaitingListTotal (n : Z)
| WaitingListNext (p : Patient)
| WaitingListFooter
| TreatedLogHeader
| TreatedLogEmpty
| TreatedLogLine (p : Patient)
| TreatedLogFooter.

(** ** Arrays of patients *)

(** Content of a slot that was allocated but never written. *)
Definition uninit : Patient :=
  {| name := EmptyString; priority_level := 0; patient_id := 0 |}.

Definition arr_get (a : list Patient) (i : Z) : Patient :=
  if i <? 0 then uninit else default uninit (a !! Z.to_nat i).

Definition arr_set (a : list Patient) (i : Z) (p : Patient) : list Patient :=
  if i <? 0 then a else <[Z.to_nat i := p]> a.

Definition with_patients (heap : MinHeap) (a : list Patient) : MinHeap :=
  {| patients := a; size := size heap; capacity := capacity heap |}.

Definition with_size (heap : MinHeap) (n : Z) : MinHeap :=
  {| patients := patients heap; size := n; capacity := capacity heap |}.

Definition priority_at (heap : MinHeap) (i : Z) : Z :=
  priority_level (arr_get (patients heap) i).

(** ** The min-heap *)

Definition create_heap (cap : Z) : MinHeap :=
  {| patients := replicate (Z.to_nat cap) uninit; size := 0; capacity := cap |}.

(** [swap(&heap->patients[i], &heap->patients[j])] *)
Definition swap (heap : MinHeap) (i j : Z) : MinHeap :=
  let temp := arr_get (patients heap) i in
  let a := arr_set (patients heap) i (arr_get (patients heap) j) in
  with_patients heap (arr_set a j temp).

Definition parent_of (index : Z) : Z := int_div (int_wrap (index - 1)) 2.

(** The guard of the [if] in [heapify_up]. *)
Definition up_guard (heap : MinHeap) (index : Z) : bool :=
  (0 <? index) && (priority_at heap index <? priority_at heap (parent_of index)).

(** [heapify_up]: the recursion is on the parent index, which is strictly
    below [index] whenever the guard holds. *)
Equations? heapify_up (heap : MinHeap) (index : Z) : MinHeap
  by wf (Z.to_nat index) lt :=
heapify_up heap index with Logic.inspect (up_guard heap index) := {
  | exist _ true Hguard =>
      heapify_up (swap heap index (parent_of index)) (parent_of index)
  | exist _ false _ => heap }.
Proof.
  unfold up_guard in Hguard. apply andb_prop in Hguard as [Hpos _].
  apply Z.ltb_lt in Hpos.
  unfold parent_of, int_div, int_wrap.
  pose proof (Z.mod_pos_bound (index - 1 + 2147483648) 4294967296 ltac:(lia)) as Hm.
  assert (Hle : (index - 1 + 2147483648) mod 4294967296 - 2147483648 <= index - 1).
  { destruct (Z_le_gt_dec (index - 1) 2147483647).
    - rewrite Z.mod_small; lia.
    - lia. }
  set (w := (index - 1 + 2147483648) mod 4294967296 - 2147483648) in *.
  pose proof (Z.quot_rem' w 2) as Hq.
  destruct (Z_lt_le_dec w 0).
  - pose proof (Z.rem_bound_pos_neg w 2 ltac:(lia) ltac:(lia)).
    rewrite Z.mod_small; lia.
  - pose proof (Z.rem_bound_pos w 2 ltac:(lia) ltac:(lia)).
    rewrite Z.mod_small; lia.
Qed.

(** The local variable [smallest] of [heapify_down] after its two [if]s. *)
Definition smallest_of (heap : MinHeap) (index : Z) : Z :=
  let smallest := index in
  let left_child := int_wrap (int_wrap (2 * index) + 1) in
  let right_child := int_wrap (int_wrap (2 * index) + 2) in
  let smallest :=
    if (left_child <? size heap)
       && (priority_at heap left_child <? priority_at heap smallest)
    then left_child else smallest in
  let smallest :=
    if (right_child <? size heap)
       && (priority_at heap right_child <? priority_at heap smallest)
    then right_child else smallest in
  smallest.

(** [heapify_down], each recursive call consuming one unit of [fuel].
    Within the allocation a call descends one level of the tree, so
    [size heap] units are never exhausted ([heapify_down_rec_fuel]). *)
Fixpoint heapify_down_rec (fuel : nat) (heap : MinHeap) (index : Z) : MinHeap :=
  match fuel with
  | O => heap
  | S fuel' =>
      let smallest := smallest_of heap index in
      if negb (smallest =? index)
      then heapify_down_rec fuel' (swap heap index smallest) smallest
      else heap
  end.

Definition heapify_down (heap : MinHeap) (index : Z) : MinHeap :=
  heapify_down_rec (Z.to_nat (size heap)) heap index.

Definition insert_patient_to_heap (heap : MinHeap) (patient : Patient)
  : MinHeap * list Output :=
  if size heap =? capacity heap then (heap, [ErrWaitingListFull])
  else
    let heap := with_size heap (int_wrap (size heap + 1)) in
    let index := int_wrap (size heap - 1) in
    let heap := with_patients heap (arr_set (patients heap) index patient) in
    (heapify_up heap index, []).

(** The local [empty_patient] of [extract_min]: the empty name, -1, -1. *)
Definition empty_patient : Patient :=
  {| name := EmptyString; priority_level := -1; patient_id := -1 |}.

(** The returned [Patient] and the heap as the call leaves it. *)
Definition extract_min (heap : MinHeap) : Patient * MinHeap :=
  if size heap <=? 0 then (empty_patient, heap)
  else if size heap =? 1 then
    let heap := with_size heap (int_wrap (size heap - 1)) in
    (arr_get (patients heap) 0, heap)
  else
    let root := arr_get (patients heap) 0 in
    let last := arr_get (patients heap) (int_wrap (size heap - 1)) in
    let heap := with_patients heap (arr_set (patients heap) 0 last) in
    let heap := with_size heap (int_wrap (size heap - 1)) in
    (root, heapify_down heap 0).

(** ** The treated log and the triage system *)

Definition create_triage_system (initial_capacity : Z) : TriageSystem :=
  {| waiting_list := create_heap initial_capacity;
     treated_log :=
       {| log_patients := replicate (Z.to_nat initial_capacity) uninit;
          log_size := 0;
          log_capacity := initial_capacity |};
     next_patient_id := 1 |}.

(** The record [add_patient] builds in its local [new_patient]. *)
Definition new_patient (system : TriageSystem) (nm : string) (priority : Z)
  : Patient :=
  {| name := nm; priority_level := priority;
     patient_id := next_patient_id system |}.

Definition add_patient (system : TriageSystem) (nm : string) (priority : Z)
  : TriageSystem * list Output :=
  let patient := new_patient system nm priority in
  let next := int_wrap (next_patient_id system + 1) in
  let '(heap, out) := insert_patient_to_heap (waiting_list system) patient in
  ({| waiting_list := heap;
      treated_log := treated_log system;
      next_patient_id := next |},
   out ++ [NewPatient nm priority]).

(** [system->treated_log->patients[system->treated_log->size++] = p] *)
Definition log_append (log : TreatedLog) (p : Patient) : TreatedLog :=
  {| log_patients := arr_set (log_patients log) (log_size log) p;
     log_size := int_wrap (log_size log + 1);
     log_capacity := log_capacity log |}.

Definition treat_next_patient (system : TriageSystem)
  : TriageSystem * list Output :=
  if size (waiting_list system) =? 0 then (system, [NoPatientsToTreat])
  else
    let '(patient_to_treat, heap) := extract_min (waiting_list system) in
    let out := [Treating patient_to_treat] in
    if log_size (treated_log system) <? log_capacity (treated_log system)
    then
      ({| waiting_list := heap;
          treated_log := log_append (treated_log system) patient_to_treat;
          next_patient_id := next_patient_id system |}, out)
    else
      ({| waiting_list := heap;
          treated_log := treated_log system;
          next_patient_id := next_patient_id system |},
       out ++ [WarnLogFull]).

(** Indices [0, 1, ..., n-1] of a [for (int i = 0; i < n; i++)] loop. *)
Definition loop_indices (n : Z) : list Z :=
  map Z.of_nat (seq 0 (Z.to_nat n)).

Definition view_waiting_list (system : TriageSystem) : list Output :=
  [WaitingListHeader]
  ++ (if size (waiting_list system) =? 0 then [WaitingListEmpty]
      else [WaitingListTotal (size (waiting_list system));
            WaitingListNext (arr_get (patients (waiting_list system)) 0)])
  ++ [WaitingListFooter].

Definition view_treated_log (system : TriageSystem) : list Output :=
  [TreatedLogHeader]
  ++ (if log_size (treated_log system) =? 0 then [TreatedLogEmpty]
      else map (fun i => TreatedLogLine (arr_get (log_patients (treated_log system)) i))
               (loop_indices (log_size (treated_log system))))
  ++ [TreatedLogFooter].

(** The simulation of [main], as the list of everything it prints. *)
Definition main_trace : TriageSystem * list Output :=
  let er := create_triage_system 20 in
  let '(er, o1) := add_patient er "Ravi Kumar (Stable Condition)" 3 in
  let '(er, o2) := add_patient er "Sita Sharma (Critical Injury)" 1 in
  let '(er, o3) := add_patient er "Amit Patel (Urgent Care)" 2 in
  let '(er, o4) := add_patient er "Priya Singh (Minor Issue)" 4 in
  let o5 := view_waiting_list er in
  let '(er, o6) := treat_next_patient er in
  let '(er, o7) := treat_next_patient er in
  let o8 := view_waiting_list er in
  let '(er, o9) := add_patient er "John Doe (Head Trauma)" 1 in
  let o10 := view_waiting_list er in
  let '(er, o11) := treat_next_patient er in
  let '(er, o12) := treat_next_patient er in
  let '(er, o13) := treat_next_patient er in
  let '(er, o14) := treat_next_patient er in
  let o15 := view_treated_log er in
  (er, o1 ++ o2 ++ o3 ++ o4 ++ o5 ++ o6 ++ o7 ++ o8 ++ o9 ++ o10
       ++ o11 ++ o12 ++ o13 ++ o14 ++ o15).

(** ** Sequences of calls *)

(** A call on the heap: [insert_patient_to_heap] or [extract_min]. *)
Inductive HeapCall : Type :=
| CallInsert (p : Patient)
| CallExtractMin.

Definition heap_call (heap : MinHeap) (c : HeapCall) : MinHeap :=
  match c with
  | CallInsert p => fst (insert_patient_to_heap heap p)
  | CallExtractMin => snd (extract_min heap)
  end.

Definition heap_calls (cs : list HeapCall) (heap : MinHeap) : MinHeap :=
  fold_left heap_call cs heap.

Definition insert_all (ps : list Patient) (heap : MinHeap) : MinHeap :=
  fold_left (fun h p => fst (insert_patient_to_heap h p)) ps heap.

(** [n] successive calls of [extract_min]: the records returned, in call
    order, and the heap left behind. *)
Fixpoint extract_n (n : nat) (heap : MinHeap) : list Patient * MinHeap :=
  match n with
  | O => ([], heap)
  | S n' =>
      let '(p, heap) := extract_min heap in
      let '(ps, heap) := extract_n n' heap in
      (p :: ps, heap)
  end.

(** A call on the triage system: [add_patient] or [treat_next_patient]. *)
Inductive Call : Type :=
| CallAddPatient (nm : string) (priority : Z)
| CallTreatNext.

Definition call (system : TriageSystem) (c : Call) : TriageSystem * list Output :=
  match c with
  | CallAddPatient nm priority => add_patient system nm priority
  | CallTreatNext => treat_next_patient system
  end.

(** The system after the calls [cs], with everything printed meanwhile. *)
Fixpoint calls (cs : list Call) (system : TriageSystem)
  : TriageSystem * list Output :=
  match cs with
  | [] => (system, [])
  | c :: cs' =>
      let '(system, out) := call system c in
      let '(system, out') := calls cs' system in
      (system, out ++ out')
  end.

(** Number of [add_patient] calls among [cs]. *)
Fixpoint additions (cs : list Call) : nat :=
  match cs with
  | [] => O
  | CallAddPatient _ _ :: cs' => S (additions cs')
  | CallTreatNext :: cs' => additions cs'
  end.

(** The patients announced as treated, in the order of the announcements. *)
Fixpoint served (out : list Output) : list Patient :=
  match out with
  | [] => []
  | Treating p :: out' => p :: served out'
  | _ :: out' => served out'
  end.

(** ** The extraction contract of the specification *)

(** The two outcomes the specification gives an extraction: an explicit
    failure, or a record together with the heap left behind. *)
Inductive ExtractResult : Type :=
| EmptyQueue
| Extracted (p : Patient) (heap : MinHeap).

(** [extract_min] as the specification words it: [EmptyQueue] on size 0. *)
Definition spec_extract_min (heap : MinHeap) : ExtractResult :=
  if size heap =? 0 then EmptyQueue
  else Extracted (fst (extract_min heap)) (snd (extract_min heap)).

(** What a caller of the C function receives: a [Patient] by value, on
    every path. *)
Definition extract_min_result (heap : MinHeap) : ExtractResult :=
  Extracted (fst (extract_min heap)) (snd (extract_min heap)).

(** ** Intermediate states *)

(** The heap of [insert_patient_to_heap] when it calls [heapify_up]: the
    new record stored in the first free slot. *)
Definition appended (heap : MinHeap) (patient : Patient) : MinHeap :=
  with_patients (with_size heap (size heap + 1))
                (arr_set (patients heap) (size heap) patient).

(** The heap of [extract_min] when it calls [heapify_down]: the last record
    copied over the root and the size decremented. *)
Definition last_to_root (heap : MinHeap) : MinHeap :=
  with_size
    (with_patients heap
       (arr_set (patients heap) 0 (arr_get (patients heap) (size heap - 1))))
    (size heap - 1).

(** ** Invariants *)

(** The allocation behind a heap: [size] slots in use out of [capacity]
    allocated ones, and child indices [2 * i + 2] that fit a C [int]. *)
Definition wf_heap (heap : MinHeap) : Prop :=
  0 <= size heap <= capacity heap
  /\ Z.of_nat (length (patients heap)) = capacity heap
  /\ 2 * capacity heap <= INT_MAX.

Definition wf_log (log : TreatedLog) : Prop :=
  0 <= log_size log <= log_capacity log
  /\ Z.of_nat (length (log_patients log)) = log_capacity log
  /\ log_capacity log <= INT_MAX.

(** The heap-order invariant, on the left and on the right child. *)
Definition heap_order (heap : MinHeap) : Prop :=
  forall i, 0 <= i ->
    (2 * i + 1 < size heap -> priority_at heap i <= priority_at heap (2 * i + 1))
    /\ (2 * i + 2 < size heap -> priority_at heap i <= priority_at heap (2 * i + 2)).

(** The same invariant as a test on the indices in use. *)
Definition heap_order_b (heap : MinHeap) : bool :=
  forallb
    (fun i =>
       (negb (2 * i + 1 <? size heap)
        || (priority_at heap i <=? priority_at heap (2 * i + 1)))
       && (negb (2 * i + 2 <? size heap)
           || (priority_at heap i <=? priority_at heap (2 * i + 2))))
    (loop_indices (size heap)).

(** [j] is the left or the right child of [i]. *)
Definition child_of (i j : Z) : Prop := j = 2 * i + 1 \/ j = 2 * i + 2.

(** Heap order on every edge of the tree but the one entering [k], the
    state of the array while [heapify_up] works at index [k]. *)
Definition order_but_above (heap : MinHeap) (k : Z) : Prop :=
  (forall i j, 0 <= i -> child_of i j -> j < size heap -> j <> k ->
     priority_at heap i <= priority_at heap j)
  /\ (forall i j, 0 <= i -> child_of i k -> child_of k j -> j < size heap ->
       priority_at heap i <= priority_at heap j).

(** Heap order on every edge but the ones leaving [k], the state of the
    array while [heapify_down] works at index [k]. *)
Definition order_but_below (heap : MinHeap) (k : Z) : Prop :=
  (forall i j, 0 <= i -> child_of i j -> j < size heap -> i <> k ->
     priority_at heap i <= priority_at heap j)
  /\ (forall i j, 0 <= i -> child_of i k -> child_of k j -> j < size heap ->
       priority_at heap i <= priority_at heap j).

(** The records a heap holds: the slots in use, by index. *)
Definition heap_contents (heap : MinHeap) : list Patient :=
  take (Z.to_nat (size heap)) (patients heap).

(** The entries of the log, oldest first. *)
Definition log_contents (log : TreatedLog) : list Patient :=
  take (Z.to_nat (log_size log)) (log_patients log).

Definition priority_le (p q : Patient) : Prop :=
  priority_level p <= priority_level q.

(** [p] is the record of the lowest index among the records of minimum
    priority that [heap] holds. *)
Definition leftmost_minimum (heap : MinHeap) (p : Patient) : Prop :=
  exists k, 0 <= k < size heap
    /\ p = arr_get (patients heap) k
    /\ (forall i, 0 <= i < size heap -> priority_level p <= priority_at heap i)
    /\ (forall i, 0 <= i < size heap ->
          priority_at heap i = priority_level p -> k <= i).

(** The tie-break of [heapify_down]: at a node whose two children are in
    use and have the same priority, [smallest] is the left child when that
    one is strictly below the node, and the node itself otherwise; the
    record of the node goes down to the left child, or stays. *)
Definition left_child_wins_ties : Prop :=
  forall heap index,
    wf_heap heap -> 0 <= index -> 2 * index + 2 < size heap ->
    priority_at heap (2 * index + 1) = priority_at heap (2 * index + 2) ->
    smallest_of heap index =
    (if priority_at heap (2 * index + 1) <? priority_at heap index
     then 2 * index + 1 else index)
    /\ heapify_down heap index =
       (if priority_at heap (2 * index + 1) <? priority_at heap index
        then heapify_down (swap heap index (2 * index + 1)) (2 * index + 1)
        else heap).

(** ** Sample data *)

Definition patient (nm : string) (priority id : Z) : Patient :=
  {| name := nm; priority_level := priority; patient_id := id |}.

(** A heap whose root has two children of equal priority. *)
Definition tie_heap : MinHeap :=
  {| patients := [patient "a" 1 1; patient "b" 2 2; patient "c" 2 3;
                  patient "d" 5 4];
     size := 4; capacity := 4 |}.

Definition sample_patients : list Patient :=
  [patient "Ravi" 3 1; patient "Sita" 1 2; patient "Amit" 2 3;
   patient "Priya" 4 4; patient "John" 1 5; patient "Zed" (-7) 6;
   patient "Nil" 0 7].

Definition sample_heap_calls : list HeapCall :=
  [CallExtractMin; CallInsert (patient "Ravi" 3 1);
   CallInsert (patient "Sita" 1 2); CallInsert (patient "Amit" (-2) 3);
   CallExtractMin; CallInsert (patient "John" 1 5); CallExtractMin].

(** A system of capacity 1 whose log is full while a patient waits. *)
Definition full_log_system : TriageSystem :=
  fst (calls [CallAddPatient "a" 1; CallTreatNext; CallAddPatient "b" 2]
             (create_triage_system 1)).

Definition sample_calls : list Call :=
  [CallAddPatient "Ravi" 3; CallTreatNext; CallAddPatient "Sita" 1].

(** Two patients treated one after the other. *)
Definition two_services : list Call :=
  [CallAddPatient "a" 1; CallTreatNext; CallAddPatient "b" 2; CallTreatNext].

(** A heap in order with free slots: the seven sample patients in a heap
    of capacity 20. *)
Definition room_heap : MinHeap := insert_all sample_patients (create_heap 20).

(** The system of [main] after its first four [add_patient] calls. *)
Definition busy_system : TriageSystem :=
  fst (calls [CallAddPatient "Ravi" 3; CallAddPatient "Sita" 1;
              CallAddPatient "Amit" 2; CallAddPatient "Priya" 4]
             (create_triage_system 20)).

(** * Properties *)

(** ** Machine integers *)

Lemma int_wrap_range z : INT_MIN <= int_wrap z <= INT_MAX.
Proof.
  unfold int_wrap, INT_MIN, INT_MAX.
  pose proof (Z.mod_pos_bound (z + 2147483648) 4294967296). lia.
Qed.

Lemma int_wrap_small z : INT_MIN <= z <= INT_MAX -> int_wrap z = z.
Proof.
  unfold int_wrap, INT_MIN, INT_MAX. intros H.
  rewrite Z.mod_small; lia.
Qed.

Lemma heapify_up_eq heap index :
  heapify_up heap index =
  if up_guard heap index
  then heapify_up (swap heap index (parent_of index)) (parent_of index)
  else heap.
Proof.
  rewrite heapify_up_equation_1.
  destruct (Logic.inspect (up_guard heap index)) as [[] H];
    simp heapify_up; rewrite H; reflexivity.
Qed.

(** Induction following the calls of [heapify_up]. *)
Lemma heapify_up_ind (P : MinHeap -> Z -> MinHeap -> Prop) :
  (forall heap index, up_guard heap index = false -> P heap index heap) ->
  (forall heap index, up_guard heap index = true ->
     let heap' := swap heap index (parent_of index) in
     P heap' (parent_of index) (heapify_up heap' (parent_of index)) ->
     P heap index (heapify_up heap' (parent_of index))) ->
  forall heap index, P heap index (heapify_up heap index).
Proof.
  intros Hstop Hstep. apply heapify_up_elim.
  - intros heap index Hguard IH _. apply Hstep; assumption.
  - intros heap index Hguard _. apply Hstop; assumption.
Qed.

(** ** Arrays *)

Lemma length_arr_set a i p : length (arr_set a i p) = length a.
Proof.
  unfold arr_set. destruct (i <? 0); [reflexivity|]. apply length_insert.
Qed.

Lemma arr_get_set_eq a i p :
  0 <= i < Z.of_nat (length a) -> arr_get (arr_set a i p) i = p.
Proof.
  intros Hi. unfold arr_get, arr_set.
  destruct (Z.ltb_spec i 0); [lia|].
  rewrite list_lookup_insert_eq by lia. reflexivity.
Qed.

Lemma arr_get_set_ne a i j p :
  i <> j -> arr_get (arr_set a i p) j = arr_get a j.
Proof.
  intros Hij. unfold arr_get, arr_set.
  destruct (Z.ltb_spec j 0); [reflexivity|].
  destruct (Z.ltb_spec i 0); [reflexivity|].
  rewrite list_lookup_insert_ne by lia. reflexivity.
Qed.

Lemma arr_get_lookup a i :
  0 <= i < Z.of_nat (length a) -> a !! Z.to_nat i = Some (arr_get a i).
Proof.
  intros Hi. unfold arr_get. destruct (Z.ltb_spec i 0); [lia|].
  destruct (lookup_lt_is_Some_2 a (Z.to_nat i)) as [x Hx]; [lia|].
  rewrite Hx. reflexivity.
Qed.

Lemma arr_get_take a n i :
  0 <= i < Z.of_nat n -> arr_get (take n a) i = arr_get a i.
Proof.
  intros Hi. unfold arr_get. destruct (Z.ltb_spec i 0); [lia|].
  rewrite lookup_take_lt by lia. reflexivity.
Qed.

(** ** [swap] *)

Lemma size_swap heap i j : size (swap heap i j) = size heap.
Proof. reflexivity. Qed.

Lemma capacity_swap heap i j : capacity (swap heap i j) = capacity heap.
Proof. reflexivity. Qed.

Lemma length_swap heap i j :
  length (patients (swap heap i j)) = length (patients heap).
Proof. unfold swap. simpl. rewrite !length_arr_set. reflexivity. Qed.

Lemma wf_heap_swap heap i j : wf_heap heap -> wf_heap (swap heap i j).
Proof.
  unfold wf_heap. rewrite length_swap, size_swap, capacity_swap. tauto.
Qed.

Section Swap.
Variables (heap : MinHeap) (i j : Z).
Hypothesis Hi : 0 <= i < Z.of_nat (length (patients heap)).
Hypothesis Hj : 0 <= j < Z.of_nat (length (patients heap)).

Lemma get_swap_l :
  arr_get (patients (swap heap i j)) i = arr_get (patients heap) j.
Proof.
  unfold swap. simpl. destruct (Z.eq_dec i j) as [->|Hne].
  - rewrite arr_get_set_eq by (rewrite length_arr_set; lia). reflexivity.
  - rewrite arr_get_set_ne by lia. rewrite arr_get_set_eq by lia. reflexivity.
Qed.

Lemma get_swap_r :
  arr_get (patients (swap heap i j)) j = arr_get (patients heap) i.
Proof.
  unfold swap. simpl.
  rewrite arr_get_set_eq by (rewrite length_arr_set; lia). reflexivity.
Qed.

Lemma get_swap_other k :
  k <> i -> k <> j ->
  arr_get (patients (swap heap i j)) k = arr_get (patients heap) k.
Proof.
  intros Hki Hkj. unfold swap. simpl.
  rewrite !arr_get_set_ne by lia. reflexivity.
Qed.

Lemma priority_swap_l : priority_at (swap heap i j) i = priority_at heap j.
Proof. unfold priority_at. rewrite get_swap_l. reflexivity. Qed.

Lemma priority_swap_r : priority_at (swap heap i j) j = priority_at heap i.
Proof. unfold priority_at. rewrite get_swap_r. reflexivity. Qed.

Lemma priority_swap_other k :
  k <> i -> k <> j -> priority_at (swap heap i j) k = priority_at heap k.
Proof.
  intros Hki Hkj. unfold priority_at. rewrite get_swap_other by assumption.
  reflexivity.
Qed.

Lemma swap_Permutation : patients (swap heap i j) ≡ₚ patients heap.
Proof.
  unfold swap, arr_set. simpl.
  destruct (Z.ltb_spec i 0); [lia|]. destruct (Z.ltb_spec j 0); [lia|].
  apply Permutation_insert_swap; apply arr_get_lookup; lia.
Qed.

Lemma swap_contents :
  i < size heap -> j < size heap -> size heap <= Z.of_nat (length (patients heap)) ->
  heap_contents (swap heap i j) ≡ₚ heap_contents heap.
Proof.
  intros Hi' Hj' Hsz. unfold heap_contents, swap, arr_set. simpl.
  destruct (Z.ltb_spec i 0); [lia|]. destruct (Z.ltb_spec j 0); [lia|].
  rewrite !take_insert_lt by lia.
  apply Permutation_insert_swap;
    rewrite lookup_take_lt by lia; apply arr_get_lookup; lia.
Qed.
End Swap.

(** ** Parents and children *)

Lemma parent_of_child index :
  0 < index <= INT_MAX ->
  0 <= parent_of index < index /\ child_of (parent_of index) index.
Proof.
  intros Hi. unfold parent_of, int_div, child_of.
  rewrite (int_wrap_small (index - 1)) by (unfold INT_MIN, INT_MAX in *; lia).
  pose proof (Z.quot_rem' (index - 1) 2) as Hq.
  pose proof (Z.rem_bound_pos (index - 1) 2 ltac:(lia) ltac:(lia)) as Hr.
  rewrite int_wrap_small by (unfold INT_MIN, INT_MAX in *; lia).
  lia.
Qed.

Lemma child_of_parent i index :
  0 < index <= INT_MAX -> 0 <= i -> child_of i index -> i = parent_of index.
Proof.
  intros Hi Hnn Hc. destruct (parent_of_child index Hi) as [Hp Hc'].
  unfold child_of in *. lia.
Qed.

Lemma heap_order_edges heap :
  heap_order heap <->
  (forall i j, 0 <= i -> child_of i j -> j < size heap ->
     priority_at heap i <= priority_at heap j).
Proof.
  unfold heap_order, child_of. split.
  - intros H i j Hi [-> | ->] Hj; apply H; assumption.
  - intros H i Hi. split; intros Hj; apply H; auto.
Qed.

Lemma up_guard_true heap index :
  up_guard heap index = true <->
  0 < index /\ priority_at heap index < priority_at heap (parent_of index).
Proof.
  unfold up_guard. rewrite andb_true_iff, Z.ltb_lt, Z.ltb_lt. reflexivity.
Qed.

Lemma up_guard_false heap index :
  up_guard heap index = false <->
  index <= 0 \/ priority_at heap (parent_of index) <= priority_at heap index.
Proof.
  unfold up_guard. rewrite andb_false_iff, !Z.ltb_ge. reflexivity.
Qed.

(** ** [heapify_up] *)

Lemma heapify_up_frame heap index :
  size (heapify_up heap index) = size heap
  /\ capacity (heapify_up heap index) = capacity heap
  /\ length (patients (heapify_up heap index)) = length (patients heap).
Proof.
  apply (heapify_up_ind (fun heap _ r =>
    size r = size heap /\ capacity r = capacity heap
    /\ length (patients r) = length (patients heap))).
  - auto.
  - intros h i _ h'. unfold h'. rewrite length_swap, size_swap, capacity_swap.
    auto.
Qed.

Lemma wf_heap_heapify_up heap index :
  wf_heap heap -> wf_heap (heapify_up heap index).
Proof.
  unfold wf_heap. destruct (heapify_up_frame heap index) as (-> & -> & ->).
  auto.
Qed.

Lemma heapify_up_contents heap index :
  wf_heap heap -> 0 <= index < size heap ->
  heap_contents (heapify_up heap index) ≡ₚ heap_contents heap.
Proof.
  apply (heapify_up_ind (fun heap index r =>
    wf_heap heap -> 0 <= index < size heap ->
    heap_contents r ≡ₚ heap_contents heap)); clear heap index.
  - reflexivity.
  - intros heap index Hg heap' IH Hwf Hi.
    apply up_guard_true in Hg as [Hpos _].
    destruct Hwf as (Hsz & Hlen & Hcap).
    destruct (parent_of_child index) as [Hp _];
      [unfold INT_MAX in *; lia|].
    rewrite IH.
    + apply swap_contents; lia.
    + apply wf_heap_swap. repeat split; assumption || lia.
    + unfold heap'. rewrite size_swap. lia.
Qed.

Lemma heapify_up_order heap index :
  wf_heap heap -> 0 <= index < size heap ->
  order_but_above heap index -> heap_order (heapify_up heap index).
Proof.
  apply (heapify_up_ind (fun heap index r =>
    wf_heap heap -> 0 <= index < size heap ->
    order_but_above heap index -> heap_order r)); clear heap index.
  - (* the element stays: the edge entering [index] is in order too *)
    intros heap index Hg (Hsz & Hlen & Hcap) Hi [Hedge _].
    apply heap_order_edges. intros i j Hi0 Hc Hj.
    destruct (Z.eq_dec j index) as [->|Hne]; [|auto].
    assert (Hrange : 0 < index <= INT_MAX)
      by (unfold child_of, INT_MAX in *; lia).
    rewrite (child_of_parent i index) by assumption.
    apply up_guard_false in Hg. lia.
  - (* the element moves to its parent *)
    intros heap k Hg heap' IH Hwf Hk [Hedge Hgrand]. subst heap'.
    apply up_guard_true in Hg as [Hpos Hlt].
    pose proof Hwf as (Hsz & Hlen & Hcap).
    assert (Hrange : 0 < k <= INT_MAX) by (unfold INT_MAX in *; lia).
    destruct (parent_of_child k Hrange) as [Hp Hpk].
    set (p := parent_of k) in *.
    assert (Hk' : 0 <= k < Z.of_nat (length (patients heap))) by lia.
    assert (Hp' : 0 <= p < Z.of_nat (length (patients heap))) by lia.
    apply IH; [apply wf_heap_swap; assumption | rewrite size_swap; lia |].
    split; rewrite size_swap.
    + intros i j Hi Hc Hj Hjp.
      destruct (Z.eq_dec j k) as [->|Hjk].
      * rewrite (child_of_parent i k) by assumption. fold p.
        rewrite priority_swap_l, priority_swap_r by assumption. lia.
      * rewrite (priority_swap_other heap k p j) by assumption.
        destruct (Z.eq_dec i k) as [->|Hik];
          [|destruct (Z.eq_dec i p) as [->|Hip]].
        -- rewrite priority_swap_l by assumption. apply (Hgrand p j); auto; lia.
        -- rewrite priority_swap_r by assumption.
           specialize (Hedge p j ltac:(lia) Hc Hj Hjk). lia.
        -- rewrite priority_swap_other by assumption. auto.
    + intros i j Hi Hip Hpj Hj.
      assert (i <> k /\ i <> p /\ j <> p) as (Hik & Hip' & Hjp)
        by (unfold child_of in *; lia).
      rewrite (priority_swap_other heap k p i) by assumption.
      pose proof (Hedge i p Hi Hip ltac:(lia) ltac:(lia)) as Hle.
      destruct (Z.eq_dec j k) as [->|Hjk].
      * rewrite priority_swap_l by assumption. assumption.
      * rewrite priority_swap_other by assumption.
        pose proof (Hedge p j ltac:(lia) Hpj Hj Hjk). lia.
Qed.

(** ** [heapify_down] *)

(** Within the allocation the child indices do not overflow. *)
Lemma smallest_of_eq heap index :
  0 <= index -> 2 * index + 2 <= INT_MAX ->
  smallest_of heap index =
  let l := 2 * index + 1 in
  let r := 2 * index + 2 in
  let s := if (l <? size heap) && (priority_at heap l <? priority_at heap index)
           then l else index in
  if (r <? size heap) && (priority_at heap r <? priority_at heap s)
  then r else s.
Proof.
  intros H0 Hmax. unfold smallest_of.
  rewrite (int_wrap_small (2 * index)) by (unfold INT_MIN, INT_MAX in *; lia).
  rewrite !int_wrap_small by (unfold INT_MIN, INT_MAX in *; lia).
  reflexivity.
Qed.

(** What the two comparisons establish about [smallest]. *)
Lemma smallest_of_spec heap index :
  0 <= index -> 2 * index + 2 <= INT_MAX ->
  let s := smallest_of heap index in
  (s = index \/ (child_of index s /\ s < size heap
                 /\ priority_at heap s < priority_at heap index))
  /\ (forall j, child_of index j -> j < size heap ->
        priority_at heap s <= priority_at heap j).
Proof.
  intros H0 Hmax. rewrite smallest_of_eq by assumption. unfold child_of. cbv zeta.
  destruct (Z.ltb_spec (2 * index + 1) (size heap));
    destruct (Z.ltb_spec (priority_at heap (2 * index + 1)) (priority_at heap index));
    destruct (Z.ltb_spec (2 * index + 2) (size heap)); simpl;
    try match goal with
        | |- context [?a <? ?b] => destruct (Z.ltb_spec a b)
        end;
    (split; [lia | intros j [-> | ->] Hj; lia]).
Qed.

Lemma smallest_of_leaf heap index :
  0 <= index -> 2 * index + 2 <= INT_MAX -> size heap <= index ->
  smallest_of heap index = index.
Proof.
  intros H0 Hmax Hsz.
  destruct (smallest_of_spec heap index H0 Hmax) as [[?|(Hc & Hs & _)] _];
    [assumption | unfold child_of in Hc; lia].
Qed.

Lemma heapify_down_rec_frame fuel : forall heap index,
  size (heapify_down_rec fuel heap index) = size heap
  /\ capacity (heapify_down_rec fuel heap index) = capacity heap
  /\ length (patients (heapify_down_rec fuel heap index)) = length (patients heap).
Proof.
  induction fuel as [|fuel IH]; intros heap index; simpl; [auto|].
  destruct (negb (smallest_of heap index =? index)); [|auto].
  destruct (IH (swap heap index (smallest_of heap index)) (smallest_of heap index))
    as (-> & -> & ->).
  rewrite length_swap. auto.
Qed.

Lemma wf_heap_heapify_down heap index :
  wf_heap heap -> wf_heap (heapify_down heap index).
Proof.
  unfold wf_heap, heapify_down.
  destruct (heapify_down_rec_frame (Z.to_nat (size heap)) heap index)
    as (-> & -> & ->).
  auto.
Qed.

(** Fuel beyond the distance from [index] to the end of the heap is never
    consumed: all such amounts of fuel give the same heap. *)
Lemma heapify_down_rec_fuel fuel1 : forall fuel2 heap index,
  wf_heap heap -> 0 <= index < size heap ->
  size heap - index <= Z.of_nat fuel1 ->
  size heap - index <= Z.of_nat fuel2 ->
  heapify_down_rec fuel1 heap index = heapify_down_rec fuel2 heap index.
Proof.
  induction fuel1 as [|fuel1 IH]; intros fuel2 heap index Hwf Hi H1 H2; [lia|].
  destruct fuel2 as [|fuel2]; [lia|]. simpl.
  pose proof Hwf as (Hsz & Hlen & Hcap).
  destruct (smallest_of_spec heap index) as [[Hs|(Hc & Hs & _)] _];
    [lia | lia | rewrite Hs, Z.eqb_refl; reflexivity |].
  destruct (negb (smallest_of heap index =? index)); [|reflexivity].
  unfold child_of in Hc.
  apply IH; rewrite ?size_swap; auto using wf_heap_swap; lia.
Qed.

(** The equation of the C function, for [heapify_down] itself. *)
Lemma heapify_down_eq heap index :
  wf_heap heap -> 0 <= index < size heap ->
  heapify_down heap index =
  let smallest := smallest_of heap index in
  if negb (smallest =? index)
  then heapify_down (swap heap index smallest) smallest
  else heap.
Proof.
  intros Hwf Hi. unfold heapify_down at 1.
  destruct (Z.to_nat (size heap)) as [|fuel] eqn:Hfuel; [lia|].
  cbn [heapify_down_rec]. cbv zeta.
  pose proof Hwf as (Hsz & Hlen & Hcap).
  destruct (smallest_of_spec heap index) as [[Hs|(Hc & Hs & _)] _];
    [lia | lia | rewrite Hs, Z.eqb_refl; reflexivity |].
  destruct (negb (smallest_of heap index =? index)); [|reflexivity].
  unfold child_of in Hc. unfold heapify_down.
  apply heapify_down_rec_fuel; rewrite ?size_swap; auto using wf_heap_swap; lia.
Qed.

Lemma heapify_down_rec_contents fuel : forall heap index,
  wf_heap heap -> 0 <= index < size heap ->
  heap_contents (heapify_down_rec fuel heap index) ≡ₚ heap_contents heap.
Proof.
  induction fuel as [|fuel IH]; intros heap index Hwf Hi; simpl; [reflexivity|].
  pose proof Hwf as (Hsz & Hlen & Hcap).
  destruct (smallest_of_spec heap index) as [[Hs|(Hc & Hs & _)] _];
    [lia | lia | rewrite Hs, Z.eqb_refl; reflexivity |].
  destruct (negb (smallest_of heap index =? index)); [|reflexivity].
  unfold child_of in Hc.
  rewrite IH by (rewrite ?size_swap; auto using wf_heap_swap; lia).
  apply swap_contents; lia.
Qed.

Lemma heapify_down_rec_order fuel : forall heap index,
  wf_heap heap -> 0 <= index < size heap ->
  size heap - index <= Z.of_nat fuel ->
  order_but_below heap index ->
  heap_order (heapify_down_rec fuel heap index).
Proof.
  induction fuel as [|fuel IH]; intros heap k Hwf Hk Hfuel [Hedge Hgrand];
    [lia|].
  simpl. pose proof Hwf as (Hsz & Hlen & Hcap).
  destruct (smallest_of_spec heap k) as [Hcases Hmin]; [lia | lia |].
  set (s := smallest_of heap k) in *.
  destruct (Z.eqb_spec s k) as [Hsk|Hsk]; simpl.
  - (* neither child is smaller: the edges leaving [k] are in order *)
    apply heap_order_edges. intros i j Hi Hc Hj.
    destruct (Z.eq_dec i k) as [->|Hik]; [|auto].
    rewrite <- Hsk at 1. auto.
  - (* the element moves to its smallest child *)
    destruct Hcases as [?|(Hks & Hs & Hlt)]; [contradiction|].
    assert (Hk' : 0 <= k < Z.of_nat (length (patients heap))) by lia.
    assert (Hs' : 0 <= s < Z.of_nat (length (patients heap)))
      by (unfold child_of in Hks; lia).
    apply IH; rewrite ?size_swap; auto using wf_heap_swap;
      [unfold child_of in Hks; lia..|].
    split; rewrite size_swap.
    + intros i j Hi Hc Hj His.
      destruct (Z.eq_dec j s) as [->|Hjs];
        [|destruct (Z.eq_dec j k) as [->|Hjk]].
      * assert (i = k) as -> by (unfold child_of in *; lia).
        rewrite priority_swap_l, priority_swap_r by assumption. lia.
      * assert (i <> k) by (unfold child_of in *; lia).
        rewrite priority_swap_l by assumption.
        rewrite priority_swap_other by assumption.
        apply (Hgrand i s); auto.
      * rewrite (priority_swap_other heap k s j) by assumption.
        destruct (Z.eq_dec i k) as [->|Hik].
        -- rewrite priority_swap_l by assumption. auto.
        -- rewrite priority_swap_other by assumption. auto.
    + intros i j Hi His Hsj Hj.
      assert (i = k) as -> by (unfold child_of in *; lia).
      assert (j <> k /\ j <> s) as [Hjk Hjs] by (unfold child_of in *; lia).
      rewrite priority_swap_l by assumption.
      rewrite priority_swap_other by assumption.
      apply Hedge; auto; lia.
Qed.

Lemma heapify_down_order heap index :
  wf_heap heap -> 0 <= index < size heap ->
  order_but_below heap index -> heap_order (heapify_down heap index).
Proof.
  intros Hwf Hi Hord. apply heapify_down_rec_order; auto. lia.
Qed.

Lemma heapify_down_contents heap index :
  wf_heap heap -> 0 <= index < size heap ->
  heap_contents (heapify_down heap index) ≡ₚ heap_contents heap.
Proof. intros. apply heapify_down_rec_contents; assumption. Qed.

Lemma heapify_down_size heap index : size (heapify_down heap index) = size heap.
Proof. apply heapify_down_rec_frame. Qed.

Lemma heapify_down_capacity heap index :
  capacity (heapify_down heap index) = capacity heap.
Proof. apply heapify_down_rec_frame. Qed.

(** ** [insert_patient_to_heap] *)

Lemma insert_full heap p :
  size heap = capacity heap ->
  insert_patient_to_heap heap p = (heap, [ErrWaitingListFull]).
Proof.
  intros H. unfold insert_patient_to_heap. rewrite H, Z.eqb_refl. reflexivity.
Qed.

Lemma insert_room heap p :
  size heap < capacity heap -> capacity heap <= INT_MAX -> INT_MIN < size heap ->
  insert_patient_to_heap heap p = (heapify_up (appended heap p) (size heap), []).
Proof.
  intros Hlt Hmax Hmin. unfold insert_patient_to_heap, appended.
  destruct (Z.eqb_spec (size heap) (capacity heap)); [lia|].
  cbn [size with_size with_patients patients capacity].
  rewrite (int_wrap_small (size heap + 1)) by (unfold INT_MIN, INT_MAX in *; lia).
  rewrite (int_wrap_small (size heap + 1 - 1)) by (unfold INT_MIN, INT_MAX in *; lia).
  replace (size heap + 1 - 1) with (size heap) by lia. reflexivity.
Qed.

Lemma wf_appended heap p :
  wf_heap heap -> size heap < capacity heap -> wf_heap (appended heap p).
Proof.
  intros (Hsz & Hlen & Hcap) Hlt. unfold wf_heap, appended. simpl.
  rewrite length_arr_set. lia.
Qed.

Lemma appended_contents heap p :
  wf_heap heap -> size heap < capacity heap ->
  heap_contents (appended heap p) = heap_contents heap ++ [p].
Proof.
  intros (Hsz & Hlen & Hcap) Hlt. unfold heap_contents, appended, arr_set. simpl.
  destruct (Z.ltb_spec (size heap) 0); [lia|].
  replace (Z.to_nat (size heap + 1)) with (S (Z.to_nat (size heap))) by lia.
  rewrite (take_S_r _ _ p) by (apply list_lookup_insert_eq; lia).
  rewrite take_insert_ge by lia. reflexivity.
Qed.

Lemma priority_at_appended heap p i :
  i <> size heap -> priority_at (appended heap p) i = priority_at heap i.
Proof.
  intros Hne. unfold priority_at, appended. simpl.
  rewrite arr_get_set_ne by lia. reflexivity.
Qed.

Lemma appended_order heap p :
  wf_heap heap -> heap_order heap ->
  order_but_above (appended heap p) (size heap).
Proof.
  intros (Hsz & Hlen & Hcap) Hord.
  rewrite heap_order_edges in Hord.
  split; unfold appended at 1; simpl.
  - intros i j Hi Hc Hj Hne.
    rewrite !priority_at_appended by (unfold child_of in Hc; lia).
    apply Hord; auto; lia.
  - intros i j Hi _ Hc Hj. unfold child_of in Hc. lia.
Qed.

(** A successful insertion: one more record, the same allocation, the
    records of before plus the new one, and heap order kept. *)
Lemma insert_room_spec heap p :
  wf_heap heap -> size heap < capacity heap ->
  let heap' := fst (insert_patient_to_heap heap p) in
  wf_heap heap'
  /\ size heap' = size heap + 1
  /\ capacity heap' = capacity heap
  /\ heap_contents heap' ≡ₚ p :: heap_contents heap
  /\ (heap_order heap -> heap_order heap').
Proof.
  intros Hwf Hlt. pose proof Hwf as (Hsz & Hlen & Hcap).
  rewrite insert_room by (unfold INT_MIN, INT_MAX in *; lia).
  cbn [fst]. cbv zeta.
  pose proof (wf_appended heap p Hwf Hlt) as Hwf'.
  destruct (heapify_up_frame (appended heap p) (size heap)) as (Hs & Hc & _).
  assert (Hin : 0 <= size heap < size (appended heap p))
    by (unfold appended; simpl; lia).
  split; [|split; [|split; [|split]]].
  - apply wf_heap_heapify_up, Hwf'.
  - rewrite Hs. reflexivity.
  - rewrite Hc. reflexivity.
  - rewrite heapify_up_contents by assumption.
    rewrite appended_contents by assumption.
    symmetry. apply Permutation_cons_append.
  - intros Hord. apply heapify_up_order; auto using appended_order.
Qed.

Lemma insert_wf heap p :
  wf_heap heap -> wf_heap (fst (insert_patient_to_heap heap p)).
Proof.
  intros Hwf. pose proof Hwf as (Hsz & Hlen & Hcap).
  destruct (Z.eq_dec (size heap) (capacity heap)) as [Hfull|Hroom].
  - rewrite insert_full by assumption. assumption.
  - apply insert_room_spec; [assumption | lia].
Qed.

Lemma insert_order heap p :
  wf_heap heap -> heap_order heap ->
  heap_order (fst (insert_patient_to_heap heap p)).
Proof.
  intros Hwf Hord. pose proof Hwf as (Hsz & Hlen & Hcap).
  destruct (Z.eq_dec (size heap) (capacity heap)) as [Hfull|Hroom].
  - rewrite insert_full by assumption. assumption.
  - apply insert_room_spec; [assumption | lia | assumption].
Qed.

(** ** [extract_min] *)

Lemma extract_min_empty heap :
  size heap <= 0 -> extract_min heap = (empty_patient, heap).
Proof.
  intros H. unfold extract_min.
  destruct (Z.leb_spec (size heap) 0); [reflexivity | lia].
Qed.

Lemma extract_min_single heap :
  size heap = 1 ->
  extract_min heap = (arr_get (patients heap) 0, with_size heap 0).
Proof.
  intros H. unfold extract_min. rewrite H. reflexivity.
Qed.

Lemma extract_min_many heap :
  1 < size heap <= INT_MAX ->
  extract_min heap =
  (arr_get (patients heap) 0, heapify_down (last_to_root heap) 0).
Proof.
  intros H. unfold extract_min, last_to_root.
  destruct (Z.leb_spec (size heap) 0); [lia|].
  destruct (Z.eqb_spec (size heap) 1); [lia|].
  cbn [size with_size with_patients patients capacity].
  rewrite (int_wrap_small (size heap - 1)) by (unfold INT_MIN, INT_MAX in *; lia).
  reflexivity.
Qed.

Lemma heap_order_no_edge heap : size heap <= 1 -> heap_order heap.
Proof. intros H i Hi. split; intros; lia. Qed.

Lemma wf_last_to_root heap :
  wf_heap heap -> 0 < size heap -> wf_heap (last_to_root heap).
Proof.
  intros (Hsz & Hlen & Hcap) Hpos. unfold wf_heap, last_to_root. simpl.
  rewrite length_arr_set. lia.
Qed.

Lemma priority_at_last_to_root heap i :
  i <> 0 -> priority_at (last_to_root heap) i = priority_at heap i.
Proof.
  intros Hne. unfold priority_at, last_to_root. simpl.
  rewrite arr_get_set_ne by lia. reflexivity.
Qed.

Lemma last_to_root_order heap :
  heap_order heap -> order_but_below (last_to_root heap) 0.
Proof.
  intros Hord. rewrite heap_order_edges in Hord.
  split; unfold last_to_root at 1; simpl.
  - intros i j Hi Hc Hj Hne.
    rewrite !priority_at_last_to_root by (unfold child_of in Hc; lia).
    apply Hord; auto; lia.
  - intros i j Hi Hc. unfold child_of in Hc. lia.
Qed.

(** Moving the last record over the root removes exactly the root. *)
Lemma last_to_root_contents heap :
  wf_heap heap -> 1 < size heap ->
  heap_contents heap
  ≡ₚ arr_get (patients heap) 0 :: heap_contents (last_to_root heap).
Proof.
  intros (Hsz & Hlen & Hcap) Hbig.
  unfold heap_contents, last_to_root. simpl.
  assert (Hlast : patients heap !! Z.to_nat (size heap - 1)
                  = Some (arr_get (patients heap) (size heap - 1)))
    by (apply arr_get_lookup; lia).
  set (last := arr_get (patients heap) (size heap - 1)) in *.
  replace (Z.to_nat (size heap)) with (S (Z.to_nat (size heap - 1))) by lia.
  rewrite (take_S_r _ _ last) by assumption.
  unfold arr_set. simpl. rewrite take_insert_lt by lia.
  destruct (Z.to_nat (size heap - 1)) as [|m] eqn:Hm; [lia|].
  destruct (patients heap) as [|root a]; [simpl in Hlen; lia|].
  simpl. unfold arr_get. simpl.
  apply perm_skip. symmetry. apply Permutation_cons_append.
Qed.

Lemma single_contents heap :
  wf_heap heap -> size heap = 1 ->
  heap_contents heap = [arr_get (patients heap) 0].
Proof.
  intros (Hsz & Hlen & Hcap) H1. unfold heap_contents. rewrite H1.
  destruct (patients heap) as [|root a]; [simpl in Hlen; lia|].
  reflexivity.
Qed.

(** An extraction from a non-empty heap: the record of index 0 is
    returned and removed, nothing else changes, heap order is kept. *)
Lemma extract_min_spec heap :
  wf_heap heap -> 0 < size heap ->
  let '(p, heap') := extract_min heap in
  p = arr_get (patients heap) 0
  /\ wf_heap heap'
  /\ size heap' = size heap - 1
  /\ capacity heap' = capacity heap
  /\ heap_contents heap ≡ₚ p :: heap_contents heap'
  /\ (heap_order heap -> heap_order heap').
Proof.
  intros Hwf Hpos. pose proof Hwf as (Hsz & Hlen & Hcap).
  destruct (Z.eq_dec (size heap) 1) as [H1|Hn1].
  - rewrite extract_min_single by assumption.
    split; [reflexivity|]. split; [|split; [|split; [|split]]].
    + unfold wf_heap, with_size. simpl. lia.
    + simpl. lia.
    + reflexivity.
    + rewrite single_contents by assumption. reflexivity.
    + intros _. apply heap_order_no_edge. simpl. lia.
  - rewrite extract_min_many by (unfold INT_MAX in *; lia).
    pose proof (wf_last_to_root heap Hwf Hpos) as Hwf'.
    assert (Hin : 0 <= 0 < size (last_to_root heap))
      by (unfold last_to_root; simpl; lia).
    split; [reflexivity|]. split; [|split; [|split; [|split]]].
    + apply wf_heap_heapify_down, Hwf'.
    + rewrite heapify_down_size. reflexivity.
    + rewrite heapify_down_capacity. reflexivity.
    + rewrite heapify_down_contents by assumption.
      apply last_to_root_contents; [assumption | lia].
    + intros Hord. apply heapify_down_order; auto using last_to_root_order.
Qed.

Lemma extract_min_wf heap : wf_heap heap -> wf_heap (snd (extract_min heap)).
Proof.
  intros Hwf. destruct (Z_le_gt_dec (size heap) 0) as [Hle|Hgt].
  - rewrite extract_min_empty by assumption. assumption.
  - pose proof (extract_min_spec heap Hwf ltac:(lia)) as H.
    destruct (extract_min heap). simpl. tauto.
Qed.

Lemma extract_min_order heap :
  wf_heap heap -> heap_order heap -> heap_order (snd (extract_min heap)).
Proof.
  intros Hwf Hord. destruct (Z_le_gt_dec (size heap) 0) as [Hle|Hgt].
  - rewrite extract_min_empty by assumption. assumption.
  - pose proof (extract_min_spec heap Hwf ltac:(lia)) as H.
    destruct (extract_min heap). simpl. tauto.
Qed.

(** ** The root is a minimum *)

Lemma heap_order_root heap :
  heap_order heap ->
  forall j, 0 <= j < size heap -> priority_at heap 0 <= priority_at heap j.
Proof.
  intros Hord. rewrite heap_order_edges in Hord.
  intros j [Hj0 Hj]. revert Hj0 Hj. pattern j.
  apply (well_founded_induction (Z.lt_wf 0)). clear j.
  intros j IH Hj0 Hj.
  destruct (Z.eq_dec j 0) as [->|Hne]; [lia|].
  pose proof (Z.div_mod (j - 1) 2 ltac:(lia)) as Hdiv.
  pose proof (Z.mod_pos_bound (j - 1) 2 ltac:(lia)) as Hmod.
  set (p := (j - 1) / 2) in *.
  assert (Hp : 0 <= p < j) by lia.
  specialize (IH p ltac:(lia) ltac:(lia) ltac:(lia)).
  assert (Hc : child_of p j) by (unfold child_of; lia).
  specialize (Hord p j ltac:(lia) Hc Hj). lia.
Qed.

Lemma root_le_contents heap :
  wf_heap heap -> heap_order heap ->
  Forall (priority_le (arr_get (patients heap) 0)) (heap_contents heap).
Proof.
  intros (Hsz & Hlen & Hcap) Hord. apply Forall_lookup_2. intros i q Hq.
  unfold heap_contents in Hq.
  apply lookup_take_Some in Hq as [Hq Hi].
  assert (Hi' : 0 <= Z.of_nat i < size heap) by lia.
  pose proof (heap_order_root heap Hord _ Hi') as Hle.
  unfold priority_le. unfold priority_at in Hle.
  assert (Hget : arr_get (patients heap) (Z.of_nat i) = q).
  { unfold arr_get. destruct (Z.ltb_spec (Z.of_nat i) 0); [lia|].
    rewrite Nat2Z.id, Hq. reflexivity. }
  rewrite Hget in Hle. exact Hle.
Qed.

(** ** [create_heap] and sequences of heap calls *)

Lemma wf_create_heap cap :
  0 <= cap -> 2 * cap <= INT_MAX -> wf_heap (create_heap cap).
Proof.
  intros H0 Hmax. unfold wf_heap, create_heap. simpl.
  rewrite length_replicate. lia.
Qed.

Lemma create_heap_order cap : heap_order (create_heap cap).
Proof. apply heap_order_no_edge. simpl. lia. Qed.

Lemma heap_call_invariant heap c :
  wf_heap heap -> heap_order heap ->
  wf_heap (heap_call heap c) /\ heap_order (heap_call heap c).
Proof.
  intros Hwf Hord. destruct c as [p|]; simpl.
  - auto using insert_wf, insert_order.
  - auto using extract_min_wf, extract_min_order.
Qed.

Lemma heap_calls_invariant cs : forall heap,
  wf_heap heap -> heap_order heap ->
  wf_heap (heap_calls cs heap) /\ heap_order (heap_calls cs heap).
Proof.
  induction cs as [|c cs IH]; intros heap Hwf Hord; [auto|].
  destruct (heap_call_invariant heap c Hwf Hord). apply IH; assumption.
Qed.

Lemma insert_all_spec ps : forall heap,
  wf_heap heap -> heap_order heap ->
  size heap + Z.of_nat (length ps) <= capacity heap ->
  let heap' := insert_all ps heap in
  wf_heap heap' /\ heap_order heap'
  /\ size heap' = size heap + Z.of_nat (length ps)
  /\ heap_contents heap' ≡ₚ ps ++ heap_contents heap.
Proof.
  induction ps as [|p ps IH]; intros heap Hwf Hord Hroom; simpl in *.
  - split; [assumption|]. split; [assumption|]. split; [lia | reflexivity].
  - destruct (insert_room_spec heap p Hwf ltac:(lia))
      as (Hwf' & Hs & Hc & Hperm & Hord').
    destruct (IH (fst (insert_patient_to_heap heap p)) Hwf' (Hord' Hord)
                 ltac:(lia)) as (Hwf2 & Hord2 & Hs2 & Hperm2).
    split; [assumption|]. split; [assumption|]. split; [lia|].
    rewrite Hperm2, Hperm. symmetry. apply Permutation_middle.
Qed.

Lemma extract_n_spec n : forall heap,
  wf_heap heap -> heap_order heap -> size heap = Z.of_nat n ->
  let '(out, heap') := extract_n n heap in
  out ≡ₚ heap_contents heap
  /\ StronglySorted priority_le out
  /\ size heap' = 0.
Proof.
  induction n as [|n IH]; intros heap Hwf Hord Hsize; simpl.
  - unfold heap_contents. rewrite Hsize. simpl.
    split; [reflexivity|]. split; [constructor | lia].
  - pose proof (extract_min_spec heap Hwf ltac:(lia)) as Hex.
    pose proof (root_le_contents heap Hwf Hord) as Hroot.
    destruct (extract_min heap) as [p heap1].
    destruct Hex as (-> & Hwf1 & Hs1 & _ & Hperm & Hord1).
    specialize (IH heap1 Hwf1 (Hord1 Hord) ltac:(lia)).
    destruct (extract_n n heap1) as [out heap2].
    destruct IH as (Hout & Hsorted & Hs2).
    split; [|split; [|assumption]].
    + rewrite Hperm, Hout. reflexivity.
    + constructor; [assumption|].
      rewrite Hperm in Hroot. apply Forall_cons in Hroot as [_ Hrest].
      rewrite Hout. exact Hrest.
Qed.

Lemma heap_order_b_true heap : heap_order_b heap = true -> heap_order heap.
Proof.
  unfold heap_order_b, loop_indices. intros Hb i Hi.
  rewrite forallb_forall in Hb.
  assert (Hin : 2 * i + 1 < size heap ->
                In i (map Z.of_nat (seq 0 (Z.to_nat (size heap))))).
  { intros Hlt. apply in_map_iff. exists (Z.to_nat i). split; [lia|].
    apply in_seq. lia. }
  split; intros Hlt; specialize (Hb i (Hin ltac:(lia)));
    apply andb_prop in Hb as [Hl Hr].
  - destruct (Z.ltb_spec (2 * i + 1) (size heap)); [|lia].
    simpl in Hl. lia.
  - destruct (Z.ltb_spec (2 * i + 2) (size heap)); [|lia].
    simpl in Hr. lia.
Qed.

(** The run of [main]: Sita and Amit are treated first, then John, who
    arrived last with priority 1, then Ravi and Priya. *)
Example main_treats_by_priority :
  map name (served (snd main_trace)) =
  ["Sita Sharma (Critical Injury)"; "Amit Patel (Urgent Care)";
   "John Doe (Head Trauma)"; "Ravi Kumar (Stable Condition)";
   "Priya Singh (Minor Issue)"]%string
  /\ log_contents (treated_log (fst main_trace)) = served (snd main_trace)
  /\ next_patient_id (fst main_trace) = 6.
Proof. vm_compute. auto. Qed.

(** * The heap claims *)

(** C1. On a well-formed heap that satisfies the heap-order invariant and
    holds at least one record, [extract_min] returns a record of minimum
    priority among the records held: the one of the lowest index among
    those of that priority (the root), which it removes.  During the way
    down, when the two children of a node have equal priority, [smallest]
    is never the right child: it is the left child if that one is strictly
    below the node, and the node itself otherwise. *)
Theorem extract_min_returns_leftmost_minimum (heap : MinHeap) :
  wf_heap heap -> heap_order heap -> 0 < size heap ->
  leftmost_minimum heap (fst (extract_min heap))
  /\ Forall (priority_le (fst (extract_min heap))) (heap_contents heap)
  /\ heap_contents heap
     ≡ₚ fst (extract_min heap) :: heap_contents (snd (extract_min heap))
  /\ left_child_wins_ties.
Proof.
  intros Hwf Hord Hpos.
  pose proof (extract_min_spec heap Hwf Hpos) as Hex.
  pose proof (root_le_contents heap Hwf Hord) as Hroot.
  pose proof (heap_order_root heap Hord) as Hmin.
  destruct (extract_min heap) as [p heap'].
  destruct Hex as (-> & _ & _ & _ & Hperm & _). cbn [fst snd].
  split; [|split; [assumption|split; [assumption|]]].
  - exists 0. split; [lia|]. split; [reflexivity|]. split.
    + intros i Hi. apply Hmin. assumption.
    + intros i Hi _. lia.
  - intros h index Hwfh Hi Hr Htie.
    pose proof Hwfh as (Hsz & Hlen & Hcap).
    assert (Hsm : smallest_of h index =
                  if priority_at h (2 * index + 1) <? priority_at h index
                  then 2 * index + 1 else index).
    { rewrite smallest_of_eq by lia. cbv zeta.
      destruct (Z.ltb_spec (2 * index + 1) (size h)); [|lia].
      destruct (Z.ltb_spec (2 * index + 2) (size h)); [|lia].
      simpl.
      destruct (Z.ltb_spec (priority_at h (2 * index + 1)) (priority_at h index));
        match goal with
        | |- context [?a <? ?b] => destruct (Z.ltb_spec a b)
        end; lia || reflexivity. }
    split; [exact Hsm|].
    rewrite heapify_down_eq by (assumption || lia). cbv zeta. rewrite Hsm.
    destruct (priority_at h (2 * index + 1) <? priority_at h index).
    + destruct (Z.eqb_spec (2 * index + 1) index); [lia | reflexivity].
    + rewrite Z.eqb_refl. reflexivity.
Qed.

(** C2. Starting from the empty heap of [create_heap], with a capacity
    whose child indices fit a C [int], after every call of any sequence of
    [insert_patient_to_heap] and [extract_min] calls, whatever the
    priorities inserted, the heap-order invariant holds. *)
Theorem heap_order_after_every_call (cap : Z) (cs : list HeapCall) (n : nat) :
  0 <= cap -> 2 * cap <= INT_MAX ->
  heap_order (heap_calls (take n cs) (create_heap cap)).
Proof.
  intros H0 Hmax.
  apply heap_calls_invariant;
    auto using wf_create_heap, create_heap_order.
Qed.

(** C3. Inserting [n] records, [n] not above the capacity, into the empty
    heap (of a capacity whose child indices fit a C [int]) and then
    calling [extract_min] [n] times returns the [n] records, each as often
    as it was inserted, in non-decreasing order of priority, and leaves
    the heap empty. *)
Theorem insert_then_extract_sorted (cap : Z) (ps : list Patient) :
  0 <= cap -> 2 * cap <= INT_MAX -> Z.of_nat (length ps) <= cap ->
  let '(out, heap) := extract_n (length ps) (insert_all ps (create_heap cap)) in
  out ≡ₚ ps /\ Sorted priority_le out /\ size heap = 0.
Proof.
  intros H0 Hmax Hlen.
  destruct (insert_all_spec ps (create_heap cap))
    as (Hwf & Hord & Hsize & Hperm);
    [auto using wf_create_heap | apply create_heap_order | simpl; lia |].
  pose proof (extract_n_spec (length ps) _ Hwf Hord ltac:(simpl in Hsize; lia))
    as Hex.
  destruct (extract_n (length ps) (insert_all ps (create_heap cap)))
    as [out heap].
  destruct Hex as (Hout & Hsorted & Hempty).
  split; [|split; [|assumption]].
  - rewrite Hout, Hperm. unfold heap_contents. simpl.
    rewrite app_nil_r. reflexivity.
  - apply StronglySorted_Sorted. assumption.
Qed.

Lemma wf_tie_heap : wf_heap tie_heap.
Proof. unfold wf_heap, INT_MAX. simpl. lia. Qed.

Lemma extract_min_returns_leftmost_minimum_witness :
  wf_heap tie_heap /\ heap_order tie_heap /\ 0 < size tie_heap
  /\ leftmost_minimum tie_heap (fst (extract_min tie_heap))
  /\ Forall (priority_le (fst (extract_min tie_heap))) (heap_contents tie_heap)
  /\ heap_contents tie_heap
     ≡ₚ fst (extract_min tie_heap) :: heap_contents (snd (extract_min tie_heap))
  /\ left_child_wins_ties.
Proof.
  assert (Hord : heap_order tie_heap)
    by (apply heap_order_b_true; vm_compute; reflexivity).
  assert (Hpos : 0 < size tie_heap) by (simpl; lia).
  split; [exact wf_tie_heap|]. split; [exact Hord|]. split; [exact Hpos|].
  exact (extract_min_returns_leftmost_minimum tie_heap wf_tie_heap Hord Hpos).
Defined.

(** On [tie_heap] the record of priority 5 moved to the root goes down to
    the left child, the record "b", and "c" stays on the right. *)
Example extract_min_tie_heap :
  extract_min tie_heap =
  (patient "a" 1 1,
   {| patients := [patient "b" 2 2; patient "d" 5 4; patient "c" 2 3;
                   patient "d" 5 4];
      size := 3; capacity := 4 |}).
Proof. vm_compute. reflexivity. Qed.

Lemma heap_order_after_every_call_witness :
  0 <= 20 /\ 2 * 20 <= INT_MAX
  /\ heap_order (heap_calls (take 5 sample_heap_calls) (create_heap 20)).
Proof.
  assert (H0 : 0 <= 20) by lia.
  assert (Hmax : 2 * 20 <= INT_MAX) by (unfold INT_MAX; lia).
  split; [exact H0|]. split; [exact Hmax|].
  exact (heap_order_after_every_call 20 sample_heap_calls 5 H0 Hmax).
Defined.

Lemma insert_then_extract_sorted_witness :
  0 <= 20 /\ 2 * 20 <= INT_MAX /\ Z.of_nat (length sample_patients) <= 20
  /\ let '(out, heap) :=
       extract_n (length sample_patients)
                 (insert_all sample_patients (create_heap 20)) in
     out ≡ₚ sample_patients /\ Sorted priority_le out /\ size heap = 0.
Proof.
  assert (H0 : 0 <= 20) by lia.
  assert (Hmax : 2 * 20 <= INT_MAX) by (unfold INT_MAX; lia).
  assert (Hlen : Z.of_nat (length sample_patients) <= 20) by (simpl; lia).
  split; [exact H0|]. split; [exact Hmax|]. split; [exact Hlen|].
  exact (insert_then_extract_sorted 20 sample_patients H0 Hmax Hlen).
Defined.

Example extract_sample_patients :
  fst (extract_n 7 (insert_all sample_patients (create_heap 20))) =
  [patient "Zed" (-7) 6; patient "Nil" 0 7; patient "John" 1 5;
   patient "Sita" 1 2; patient "Amit" 2 3; patient "Ravi" 3 1;
   patient "Priya" 4 4].
Proof. vm_compute. reflexivity. Qed.

(** ** The identifier counter *)

Lemma int_wrap_add_l a b : int_wrap (int_wrap a + b) = int_wrap (a + b).
Proof.
  unfold int_wrap. f_equal.
  replace ((a + 2147483648) mod 4294967296 - 2147483648 + b + 2147483648)
    with ((a + 2147483648) mod 4294967296 + b) by lia.
  rewrite Zplus_mod_idemp_l. f_equal. lia.
Qed.

Lemma add_patient_heap system nm priority :
  waiting_list (fst (add_patient system nm priority)) =
  fst (insert_patient_to_heap (waiting_list system)
                              (new_patient system nm priority)).
Proof.
  unfold add_patient. destruct (insert_patient_to_heap _ _). reflexivity.
Qed.

Lemma add_patient_next system nm priority :
  next_patient_id (fst (add_patient system nm priority)) =
  int_wrap (next_patient_id system + 1).
Proof.
  unfold add_patient. destruct (insert_patient_to_heap _ _). reflexivity.
Qed.

Lemma add_patient_log system nm priority :
  treated_log (fst (add_patient system nm priority)) = treated_log system.
Proof.
  unfold add_patient. destruct (insert_patient_to_heap _ _). reflexivity.
Qed.

Lemma add_patient_served system nm priority :
  served (snd (add_patient system nm priority)) = [].
Proof.
  unfold add_patient, insert_patient_to_heap.
  destruct (size (waiting_list system) =? capacity (waiting_list system));
    reflexivity.
Qed.

Lemma treat_next_patient_next system :
  next_patient_id (fst (treat_next_patient system)) = next_patient_id system.
Proof.
  unfold treat_next_patient.
  destruct (size (waiting_list system) =? 0); [reflexivity|].
  destruct (extract_min (waiting_list system)).
  destruct (log_size (treated_log system) <? log_capacity (treated_log system));
    reflexivity.
Qed.

Lemma calls_cons c cs system :
  calls (c :: cs) system =
  (fst (calls cs (fst (call system c))),
   snd (call system c) ++ snd (calls cs (fst (call system c)))).
Proof.
  simpl. destruct (call system c) as [s1 o1]. simpl.
  destruct (calls cs s1). reflexivity.
Qed.

Lemma calls_next_patient_id cs : forall system,
  INT_MIN <= next_patient_id system <= INT_MAX ->
  next_patient_id (fst (calls cs system)) =
  int_wrap (next_patient_id system + Z.of_nat (additions cs)).
Proof.
  induction cs as [|c cs IH]; intros system Hrange.
  - simpl. rewrite Z.add_0_r, int_wrap_small; auto.
  - rewrite calls_cons. cbn [fst]. destruct c as [nm priority|].
    + cbn [call additions]. rewrite IH; rewrite add_patient_next.
      * rewrite int_wrap_add_l. f_equal. lia.
      * apply int_wrap_range.
    + cbn [call additions]. rewrite IH; rewrite treat_next_patient_next; auto.
Qed.

Lemma additions_replicate n nm priority :
  additions (replicate n (CallAddPatient nm priority)) = n.
Proof. induction n as [|n IH]; simpl; congruence. Qed.

(** * The registry claims *)

(** C4, as the code has it.  In a freshly created system, after any calls
    of which fewer than [INT_MAX] are [add_patient] calls, the next
    [add_patient] call, the k-th one, assigns identifier k to the record
    it builds and hands to [insert_patient_to_heap].  Every [add_patient]
    call advances the counter by one in 32-bit arithmetic, also when the
    heap is full and the record is not stored. *)
Theorem identifiers_in_call_order
  (cap : Z) (cs : list Call) (nm : string) (priority : Z) :
  Z.of_nat (additions cs) < INT_MAX ->
  let system := fst (calls cs (create_triage_system cap)) in
  patient_id (new_patient system nm priority) = Z.of_nat (additions cs) + 1
  /\ waiting_list (fst (add_patient system nm priority)) =
     fst (insert_patient_to_heap (waiting_list system)
                                 (new_patient system nm priority))
  /\ (forall s nm' priority',
        next_patient_id (fst (add_patient s nm' priority')) =
        int_wrap (next_patient_id s + 1))
  /\ (forall s nm' priority',
        INT_MIN <= next_patient_id s < INT_MAX ->
        next_patient_id (fst (add_patient s nm' priority')) =
        next_patient_id s + 1)
  /\ (forall s nm' priority',
        size (waiting_list s) = capacity (waiting_list s) ->
        waiting_list (fst (add_patient s nm' priority')) = waiting_list s
        /\ next_patient_id (fst (add_patient s nm' priority')) =
           int_wrap (next_patient_id s + 1)).
Proof.
  intros Hk. cbv zeta.
  split; [|split; [|split; [|split]]].
  - unfold new_patient. cbn [patient_id].
    rewrite calls_next_patient_id by (unfold INT_MIN, INT_MAX; simpl; lia).
    cbn [create_triage_system next_patient_id].
    rewrite int_wrap_small by (unfold INT_MIN, INT_MAX in *; lia). lia.
  - apply add_patient_heap.
  - intros. apply add_patient_next.
  - intros s nm' priority' Hs. rewrite add_patient_next.
    apply int_wrap_small. lia.
  - intros s nm' priority' Hfull. split; [|apply add_patient_next].
    rewrite add_patient_heap, insert_full by assumption. reflexivity.
Qed.

Lemma identifiers_in_call_order_witness :
  Z.of_nat (additions sample_calls) < INT_MAX
  /\ patient_id
       (new_patient
          (fst (calls sample_calls (create_triage_system 1))) "Amit" 2) = 3.
Proof.
  assert (Hk : Z.of_nat (additions sample_calls) < INT_MAX)
    by (unfold INT_MAX; simpl; lia).
  split; [exact Hk|].
  exact (proj1 (identifiers_in_call_order 1 sample_calls "Amit" 2 Hk)).
Defined.

(** The identifier of the call number 2^31 is not 2^31: the counter is a
    32-bit [int], and after 2^31 - 1 calls it has wrapped to [INT_MIN]. *)
Lemma identifiers_in_call_order_counterexample :
  let system :=
    fst (calls (replicate (Z.to_nat 2147483647) (CallAddPatient "x" 0))
               (create_triage_system 20)) in
  patient_id (new_patient system "x" 0) = -2147483648
  /\ patient_id (new_patient system "x" 0) <> 2147483647 + 1.
Proof.
  cbv zeta. unfold new_patient. cbn [patient_id].
  rewrite calls_next_patient_id
    by (unfold INT_MIN, INT_MAX; cbn [create_triage_system next_patient_id]; lia).
  rewrite additions_replicate, Z2Nat.id by lia.
  cbn [create_triage_system next_patient_id].
  split; [reflexivity | discriminate].
Qed.

(** ** The treated log *)

Lemma log_contents_length log :
  wf_log log -> length (log_contents log) = Z.to_nat (log_size log).
Proof.
  intros (Hsz & Hlen & Hcap). unfold log_contents.
  rewrite length_take. lia.
Qed.

Lemma log_append_spec log p :
  wf_log log -> log_size log < log_capacity log ->
  wf_log (log_append log p)
  /\ log_contents (log_append log p) = log_contents log ++ [p].
Proof.
  intros (Hsz & Hlen & Hcap) Hroom. unfold wf_log, log_contents, log_append.
  cbn [log_size log_capacity log_patients].
  rewrite length_arr_set.
  rewrite int_wrap_small by (unfold INT_MIN, INT_MAX in *; lia).
  split; [lia|]. unfold arr_set.
  destruct (Z.ltb_spec (log_size log) 0); [lia|].
  replace (Z.to_nat (log_size log + 1)) with (S (Z.to_nat (log_size log))) by lia.
  rewrite (take_S_r _ _ p) by (apply list_lookup_insert_eq; lia).
  rewrite take_insert_ge by lia. reflexivity.
Qed.

(** What one call does to the log: it appends the record it announces as
    treated if the log has room, and nothing otherwise. *)
Lemma call_log system c :
  wf_log (treated_log system) ->
  let log := treated_log system in
  let log' := treated_log (fst (call system c)) in
  let out := snd (call system c) in
  wf_log log'
  /\ log_capacity log' = log_capacity log
  /\ (length (served out) <= 1)%nat
  /\ log_contents log' =
     take (Z.to_nat (log_capacity log)) (log_contents log ++ served out)
  /\ (forall nm priority, c = CallAddPatient nm priority -> log' = log).
Proof.
  intros Hwf. cbv zeta. pose proof Hwf as (Hsz & Hlen & Hcap).
  pose proof (log_contents_length _ Hwf) as Hclen.
  assert (Hsame : log_contents (treated_log system) =
                  take (Z.to_nat (log_capacity (treated_log system)))
                       (log_contents (treated_log system) ++ [])).
  { rewrite app_nil_r, take_ge by lia. reflexivity. }
  destruct c as [nm priority|]; cbn [call].
  - rewrite add_patient_log, add_patient_served. simpl. auto with lia.
  - unfold treat_next_patient.
    destruct (size (waiting_list system) =? 0).
    { simpl. split; [assumption|]. split; [reflexivity|]. split; [lia|].
      split; [assumption | discriminate]. }
    destruct (extract_min (waiting_list system)) as [p heap].
    destruct (Z.ltb_spec (log_size (treated_log system))
                         (log_capacity (treated_log system))) as [Hroom|Hfull];
      cbn [fst snd treated_log served app length].
    + destruct (log_append_spec _ p Hwf Hroom) as [Hwf' Happ].
      split; [assumption|]. split; [reflexivity|]. split; [lia|].
      split; [|discriminate].
      rewrite Happ, take_ge by (rewrite length_app; simpl; lia). reflexivity.
    + split; [assumption|]. split; [reflexivity|]. split; [lia|].
      split; [|discriminate].
      rewrite take_app_le by lia. rewrite take_ge by lia. reflexivity.
Qed.

Lemma served_app o1 o2 : served (o1 ++ o2) = served o1 ++ served o2.
Proof.
  induction o1 as [|[] o1 IH]; simpl; congruence.
Qed.

Lemma take_take_app {A} (n : nat) (l k : list A) :
  take n (take n l ++ k) = take n (l ++ k).
Proof.
  destruct (Nat.le_gt_cases n (length l)) as [Hle|Hgt].
  - rewrite !take_app_le by (rewrite ?length_take; lia).
    rewrite take_take, Nat.min_id. reflexivity.
  - rewrite (take_ge l) by lia. reflexivity.
Qed.

Lemma calls_log cs : forall system,
  wf_log (treated_log system) ->
  let log := treated_log system in
  let log' := treated_log (fst (calls cs system)) in
  wf_log log'
  /\ log_capacity log' = log_capacity log
  /\ log_contents log' =
     take (Z.to_nat (log_capacity log))
          (log_contents log ++ served (snd (calls cs system))).
Proof.
  induction cs as [|c cs IH]; intros system Hwf; cbv zeta.
  - simpl. split; [assumption|]. split; [reflexivity|].
    rewrite app_nil_r, take_ge; [reflexivity|].
    rewrite log_contents_length by assumption. destruct Hwf. lia.
  - rewrite calls_cons. cbn [fst snd].
    destruct (call_log system c Hwf) as (Hwf1 & Hcap1 & _ & Hc1 & _).
    destruct (IH (fst (call system c)) Hwf1) as (Hwf2 & Hcap2 & Hc2).
    split; [assumption|]. split; [congruence|].
    rewrite Hc2, Hcap1, Hc1, served_app, take_take_app, app_assoc.
    reflexivity.
Qed.

Lemma wf_log_create cap :
  0 <= cap <= INT_MAX -> wf_log (treated_log (create_triage_system cap)).
Proof.
  intros H. unfold wf_log. simpl. rewrite length_replicate. lia.
Qed.

Lemma treated_log_lines (a : list Patient) (n : nat) :
  (n <= length a)%nat ->
  map (fun i => TreatedLogLine (arr_get a i)) (map Z.of_nat (seq 0 n)) =
  map TreatedLogLine (take n a).
Proof.
  induction n as [|n IH]; intros Hn; [reflexivity|].
  rewrite seq_S, !map_app, IH by lia. simpl.
  destruct (lookup_lt_is_Some_2 a n ltac:(lia)) as [x Hx].
  rewrite (take_S_r _ _ x) by assumption. rewrite map_app. simpl.
  unfold arr_get. destruct (Z.ltb_spec (Z.of_nat n) 0); [lia|].
  rewrite Nat2Z.id, Hx. reflexivity.
Qed.

(** [view_treated_log] prints the entries of the log, oldest first. *)
Lemma view_treated_log_contents system :
  wf_log (treated_log system) ->
  view_treated_log system =
  [TreatedLogHeader]
  ++ (if log_size (treated_log system) =? 0 then [TreatedLogEmpty]
      else map TreatedLogLine (log_contents (treated_log system)))
  ++ [TreatedLogFooter].
Proof.
  intros (Hsz & Hlen & Hcap). unfold view_treated_log, loop_indices, log_contents.
  rewrite treated_log_lines by lia. reflexivity.
Qed.

(** C5, as the code has it.  On a heap whose size is 0 (or below),
    [extract_min] does not fail: it returns the record [empty_patient] by
    value, as on every other path it returns a record, and leaves the heap
    as it is. *)
Theorem extract_min_on_empty_returns_record (heap : MinHeap) :
  size heap <= 0 ->
  extract_min heap = (empty_patient, heap)
  /\ extract_min_result heap = Extracted (patient EmptyString (-1) (-1)) heap.
Proof.
  intros Hsize. unfold extract_min_result.
  rewrite extract_min_empty by assumption. split; reflexivity.
Qed.

Lemma extract_min_on_empty_returns_record_witness :
  size (create_heap 20) <= 0
  /\ extract_min (create_heap 20) = (empty_patient, create_heap 20)
  /\ extract_min_result (create_heap 20)
     = Extracted (patient EmptyString (-1) (-1)) (create_heap 20).
Proof.
  assert (Hsize : size (create_heap 20) <= 0) by (simpl; lia).
  split; [exact Hsize|].
  exact (extract_min_on_empty_returns_record (create_heap 20) Hsize).
Defined.

(** On the empty heap of capacity 20 the specification asks for
    [EmptyQueue]; the function returns a record. *)
Lemma extract_min_empty_queue_counterexample :
  size (create_heap 20) = 0
  /\ spec_extract_min (create_heap 20) = EmptyQueue
  /\ fst (extract_min (create_heap 20)) = patient EmptyString (-1) (-1)
  /\ extract_min_result (create_heap 20) <> spec_extract_min (create_heap 20).
Proof.
  split; [reflexivity|]. split; [reflexivity|]. split; [reflexivity|].
  discriminate.
Qed.

(** C6. On a heap whose size equals its capacity,
    [insert_patient_to_heap] reports the failure (the message "Error:
    Waiting list is full. Cannot add more patients.") and returns the heap
    unchanged: same size, same capacity, same array.  On a heap with size
    below capacity it reports nothing, the size grows by exactly 1 and the
    heap holds the records of before and the new one. *)
Theorem insert_capacity_boundary (heap : MinHeap) (p : Patient) :
  (size heap = capacity heap ->
   insert_patient_to_heap heap p = (heap, [ErrWaitingListFull]))
  /\ (wf_heap heap -> size heap < capacity heap ->
      snd (insert_patient_to_heap heap p) = []
      /\ size (fst (insert_patient_to_heap heap p)) = size heap + 1
      /\ capacity (fst (insert_patient_to_heap heap p)) = capacity heap
      /\ heap_contents (fst (insert_patient_to_heap heap p))
         ≡ₚ p :: heap_contents heap).
Proof.
  split.
  - apply insert_full.
  - intros Hwf Hroom.
    destruct (insert_room_spec heap p Hwf Hroom) as (_ & Hs & Hc & Hperm & _).
    split; [|auto].
    destruct Hwf as (Hsz & Hlen & Hcap).
    rewrite insert_room by (unfold INT_MIN, INT_MAX in *; lia). reflexivity.
Qed.

Lemma insert_capacity_boundary_witness :
  (size tie_heap = capacity tie_heap
   /\ insert_patient_to_heap tie_heap (patient "e" 0 5)
      = (tie_heap, [ErrWaitingListFull]))
  /\ (wf_heap (create_heap 20) /\ size (create_heap 20) < capacity (create_heap 20)
      /\ size (fst (insert_patient_to_heap (create_heap 20) (patient "e" 0 5)))
         = size (create_heap 20) + 1).
Proof.
  assert (Hfull : size tie_heap = capacity tie_heap) by reflexivity.
  assert (Hwf : wf_heap (create_heap 20))
    by (unfold wf_heap, INT_MAX; simpl; lia).
  assert (Hroom : size (create_heap 20) < capacity (create_heap 20))
    by (simpl; lia).
  split.
  - split; [exact Hfull|].
    exact (proj1 (insert_capacity_boundary tie_heap (patient "e" 0 5)) Hfull).
  - split; [exact Hwf|]. split; [exact Hroom|].
    exact (proj1 (proj2 (proj2 (insert_capacity_boundary
                                  (create_heap 20) (patient "e" 0 5))
                               Hwf Hroom))).
Defined.

(** C7. When patients wait and the log is full, [treat_next_patient]
    still takes the minimum-priority record out of the heap and announces
    it as treated; it warns that the log is full and leaves the log, and
    the identifier counter, as they were.  The extraction is not undone. *)
Theorem serve_with_full_log (system : TriageSystem) :
  wf_heap (waiting_list system) -> heap_order (waiting_list system) ->
  0 < size (waiting_list system) ->
  log_size (treated_log system) = log_capacity (treated_log system) ->
  let p := arr_get (patients (waiting_list system)) 0 in
  let system' := fst (treat_next_patient system) in
  snd (treat_next_patient system) = [Treating p; WarnLogFull]
  /\ Forall (priority_le p) (heap_contents (waiting_list system))
  /\ heap_contents (waiting_list system)
     ≡ₚ p :: heap_contents (waiting_list system')
  /\ size (waiting_list system') = size (waiting_list system) - 1
  /\ treated_log system' = treated_log system
  /\ next_patient_id system' = next_patient_id system.
Proof.
  intros Hwf Hord Hpos Hfull. cbv zeta.
  pose proof (extract_min_spec _ Hwf Hpos) as Hex.
  pose proof (root_le_contents _ Hwf Hord) as Hroot.
  unfold treat_next_patient.
  destruct (Z.eqb_spec (size (waiting_list system)) 0); [lia|].
  destruct (extract_min (waiting_list system)) as [p heap].
  destruct Hex as (-> & _ & Hs & _ & Hperm & _).
  destruct (Z.ltb_spec (log_size (treated_log system))
                       (log_capacity (treated_log system))); [lia|].
  cbn [fst snd waiting_list treated_log next_patient_id app].
  auto 10.
Qed.

Lemma serve_with_full_log_witness :
  wf_heap (waiting_list full_log_system)
  /\ heap_order (waiting_list full_log_system)
  /\ 0 < size (waiting_list full_log_system)
  /\ log_size (treated_log full_log_system)
     = log_capacity (treated_log full_log_system)
  /\ snd (treat_next_patient full_log_system)
     = [Treating (arr_get (patients (waiting_list full_log_system)) 0);
        WarnLogFull]
  /\ treated_log (fst (treat_next_patient full_log_system))
     = treated_log full_log_system.
Proof.
  assert (Hwf : wf_heap (waiting_list full_log_system))
    by (unfold wf_heap, INT_MAX; vm_compute; intuition discriminate).
  assert (Hord : heap_order (waiting_list full_log_system))
    by (apply heap_order_b_true; vm_compute; reflexivity).
  assert (Hpos : 0 < size (waiting_list full_log_system))
    by (vm_compute; reflexivity).
  assert (Hfull : log_size (treated_log full_log_system)
                  = log_capacity (treated_log full_log_system))
    by (vm_compute; reflexivity).
  split; [exact Hwf|]. split; [exact Hord|]. split; [exact Hpos|].
  split; [exact Hfull|].
  pose proof (serve_with_full_log full_log_system Hwf Hord Hpos Hfull) as H.
  split; [exact (proj1 H)|].
  exact (proj1 (proj2 (proj2 (proj2 (proj2 H))))).
Defined.

(** C8. With an empty waiting list, [treat_next_patient] reports that
    there is nobody to treat, announces no patient and changes nothing:
    the heap, the log (its length and its contents) and the identifier
    counter are the ones of before. *)
Theorem serve_on_empty_heap (system : TriageSystem) :
  size (waiting_list system) = 0 ->
  treat_next_patient system = (system, [NoPatientsToTreat])
  /\ served (snd (treat_next_patient system)) = []
  /\ size (waiting_list (fst (treat_next_patient system))) = 0
  /\ log_contents (treated_log (fst (treat_next_patient system)))
     = log_contents (treated_log system)
  /\ next_patient_id (fst (treat_next_patient system)) = next_patient_id system.
Proof.
  intros Hempty.
  assert (Heq : treat_next_patient system = (system, [NoPatientsToTreat])).
  { unfold treat_next_patient. rewrite Hempty. reflexivity. }
  rewrite Heq. cbn [fst snd served]. auto.
Qed.

Lemma serve_on_empty_heap_witness :
  size (waiting_list (create_triage_system 20)) = 0
  /\ treat_next_patient (create_triage_system 20)
     = (create_triage_system 20, [NoPatientsToTreat]).
Proof.
  assert (Hempty : size (waiting_list (create_triage_system 20)) = 0)
    by reflexivity.
  split; [exact Hempty|].
  exact (proj1 (serve_on_empty_heap (create_triage_system 20) Hempty)).
Defined.

(** C9, as the code has it.  In a system created with capacity [cap], at
    every moment the log holds the first [cap] of the patients announced
    as treated so far, in the order they were treated: all of them while
    they are at most [cap], and the later ones are not recorded.  A call
    keeps the entries already there as a prefix of the log and adds at
    most one entry; [add_patient] leaves the log as it is; and
    [view_treated_log] prints the entries from the oldest on. *)
Theorem treated_log_append_only (cap : Z) (cs : list Call) (c : Call) :
  0 <= cap -> 2 * cap <= INT_MAX ->
  let system := fst (calls cs (create_triage_system cap)) in
  let out := snd (calls cs (create_triage_system cap)) in
  let system' := fst (call system c) in
  log_contents (treated_log system) = take (Z.to_nat cap) (served out)
  /\ (Z.of_nat (length (served out)) <= cap ->
      log_contents (treated_log system) = served out)
  /\ log_contents (treated_log system) `prefix_of` log_contents (treated_log system')
  /\ (length (log_contents (treated_log system'))
      <= S (length (log_contents (treated_log system))))%nat
  /\ (forall nm priority, c = CallAddPatient nm priority ->
        treated_log system' = treated_log system)
  /\ view_treated_log system =
     [TreatedLogHeader]
     ++ (if log_size (treated_log system) =? 0 then [TreatedLogEmpty]
         else map TreatedLogLine (log_contents (treated_log system)))
     ++ [TreatedLogFooter].
Proof.
  intros H0 Hmax. cbv zeta.
  assert (Hwf0 : wf_log (treated_log (create_triage_system cap)))
    by (apply wf_log_create; unfold INT_MAX in *; lia).
  destruct (calls_log cs _ Hwf0) as (Hwf & Hcap & Hc).
  change (log_capacity (treated_log (create_triage_system cap)))
    with cap in Hcap, Hc.
  change (log_contents (treated_log (create_triage_system cap)))
    with (@nil Patient) in Hc.
  rewrite app_nil_l in Hc.
  set (system := fst (calls cs (create_triage_system cap))) in *.
  destruct (call_log system c Hwf) as (_ & _ & Hone & Hstep & Hadd).
  rewrite Hcap in Hstep.
  pose proof (log_contents_length _ Hwf) as Hlen. destruct Hwf as (Hsz & _ & _).
  split; [assumption|]. split; [|split; [|split; [|split]]].
  - intros Hfew. rewrite Hc, take_ge by lia. reflexivity.
  - rewrite Hstep, take_app_ge by lia. eexists. reflexivity.
  - rewrite Hstep, length_take, length_app. lia.
  - assumption.
  - apply view_treated_log_contents. unfold system.
    apply calls_log, Hwf0.
Qed.

Lemma treated_log_append_only_witness :
  0 <= 1 /\ 2 * 1 <= INT_MAX
  /\ log_contents (treated_log (fst (calls two_services (create_triage_system 1))))
     = take (Z.to_nat 1)
            (served (snd (calls two_services (create_triage_system 1)))).
Proof.
  assert (H0 : 0 <= 1) by lia.
  assert (Hmax : 2 * 1 <= INT_MAX) by (unfold INT_MAX; lia).
  split; [exact H0|]. split; [exact Hmax|].
  exact (proj1 (treated_log_append_only 1 two_services CallTreatNext H0 Hmax)).
Defined.

(** In a system of capacity 1, two patients are treated one after the
    other; the log holds the first of them only. *)
Lemma treated_log_counterexample :
  let '(system, out) := calls two_services (create_triage_system 1) in
  served out = [patient "a" 1 1; patient "b" 2 2]
  /\ log_contents (treated_log system) = [patient "a" 1 1]
  /\ log_contents (treated_log system) <> served out.
Proof. vm_compute. split; [reflexivity|]. split; [reflexivity | discriminate]. Qed.

(** C10. On a heap of size 0, [extract_min] leaves the heap as it is and
    returns the record with the empty name, priority -1 and identifier -1.
    A heap that holds a record with these three fields returns the very
    same value: nothing in the result tells the two cases apart. *)
Theorem extract_min_sentinel (heap : MinHeap) :
  size heap = 0 ->
  snd (extract_min heap) = heap
  /\ name (fst (extract_min heap)) = EmptyString
  /\ priority_level (fst (extract_min heap)) = -1
  /\ patient_id (fst (extract_min heap)) = -1
  /\ (forall cap, 0 < cap -> 2 * cap <= INT_MAX ->
        let held :=
          fst (insert_patient_to_heap (create_heap cap)
                                      (patient EmptyString (-1) (-1))) in
        size held = 1 /\ fst (extract_min held) = fst (extract_min heap)).
Proof.
  intros Hempty. rewrite extract_min_empty by lia. cbn [fst snd].
  split; [reflexivity|]. split; [reflexivity|]. split; [reflexivity|].
  split; [reflexivity|]. intros cap Hpos Hmax. cbv zeta.
  rewrite insert_room by (unfold INT_MIN, INT_MAX in *; simpl; lia).
  cbn [fst]. rewrite heapify_up_eq.
  change (size (create_heap cap)) with 0.
  unfold up_guard. cbn [Z.ltb Z.compare andb].
  split; [reflexivity|].
  rewrite extract_min_single by reflexivity. cbn [fst].
  unfold appended. cbn [patients with_patients with_size create_heap size].
  apply arr_get_set_eq. rewrite length_replicate. lia.
Qed.

Lemma extract_min_sentinel_witness :
  size (create_heap 20) = 0
  /\ snd (extract_min (create_heap 20)) = create_heap 20
  /\ patient_id (fst (extract_min (create_heap 20))) = -1.
Proof.
  assert (Hempty : size (create_heap 20) = 0) by reflexivity.
  split; [exact Hempty|].
  pose proof (extract_min_sentinel (create_heap 20) Hempty) as H.
  split; [exact (proj1 H)|].
  exact (proj1 (proj2 (proj2 (proj2 H)))).
Defined.

(** * Further properties of the heap functions *)

Lemma arr_ext (a b : list Patient) :
  length a = length b ->
  (forall k, 0 <= k < Z.of_nat (length a) -> arr_get a k = arr_get b k) ->
  a = b.
Proof.
  intros Hlen Hget.
  apply (list_eq_same_length a b (length a)); [congruence | reflexivity |].
  intros i x y Hi Hx Hy.
  specialize (Hget (Z.of_nat i) ltac:(lia)).
  pose proof (arr_get_lookup a (Z.of_nat i) ltac:(lia)) as Ha.
  pose proof (arr_get_lookup b (Z.of_nat i) ltac:(lia)) as Hb.
  rewrite Nat2Z.id in Ha, Hb. congruence.
Qed.

(** X1. Within the allocation, [swap] exchanges the records of the two
    slots and leaves every other slot, the size and the capacity as they
    are; swapping the same two slots again restores the heap. *)
Theorem swap_exchanges_two_slots (heap : MinHeap) (i j : Z) :
  0 <= i < Z.of_nat (length (patients heap)) ->
  0 <= j < Z.of_nat (length (patients heap)) ->
  arr_get (patients (swap heap i j)) i = arr_get (patients heap) j
  /\ arr_get (patients (swap heap i j)) j = arr_get (patients heap) i
  /\ (forall k, k <> i -> k <> j ->
        arr_get (patients (swap heap i j)) k = arr_get (patients heap) k)
  /\ length (patients (swap heap i j)) = length (patients heap)
  /\ size (swap heap i j) = size heap
  /\ capacity (swap heap i j) = capacity heap
  /\ swap (swap heap i j) i j = heap.
Proof.
  intros Hi Hj.
  split; [apply get_swap_l; assumption|].
  split; [apply get_swap_r; assumption|].
  split; [intros k Hki Hkj; apply get_swap_other; assumption|].
  split; [apply length_swap|]. split; [reflexivity|]. split; [reflexivity|].
  assert (Hp : patients (swap (swap heap i j) i j) = patients heap).
  { apply arr_ext; [rewrite !length_swap; reflexivity|].
    intros k Hk.
    assert (Hi' : 0 <= i < Z.of_nat (length (patients (swap heap i j))))
      by (rewrite length_swap; lia).
    assert (Hj' : 0 <= j < Z.of_nat (length (patients (swap heap i j))))
      by (rewrite length_swap; lia).
    destruct (Z.eq_dec k i) as [->|Hki];
      [|destruct (Z.eq_dec k j) as [->|Hkj]].
    - rewrite get_swap_l, get_swap_r by assumption. reflexivity.
    - rewrite get_swap_r, get_swap_l by assumption. reflexivity.
    - rewrite !get_swap_other by assumption. reflexivity. }
  destruct heap as [a n c]. unfold swap, with_patients in *. simpl in *.
  rewrite Hp. reflexivity.
Qed.

Lemma swap_exchanges_two_slots_witness :
  0 <= 0 < Z.of_nat (length (patients tie_heap))
  /\ 0 <= 3 < Z.of_nat (length (patients tie_heap))
  /\ arr_get (patients (swap tie_heap 0 3)) 0 = arr_get (patients tie_heap) 3
  /\ swap (swap tie_heap 0 3) 0 3 = tie_heap.
Proof.
  assert (Hi : 0 <= 0 < Z.of_nat (length (patients tie_heap))) by (simpl; lia).
  assert (Hj : 0 <= 3 < Z.of_nat (length (patients tie_heap))) by (simpl; lia).
  split; [exact Hi|]. split; [exact Hj|].
  pose proof (swap_exchanges_two_slots tie_heap 0 3 Hi Hj) as H.
  split; [exact (proj1 H)|].
  exact (proj2 (proj2 (proj2 (proj2 (proj2 (proj2 H)))))).
Defined.

Lemma heapify_up_above heap index :
  wf_heap heap -> 0 <= index < size heap ->
  forall k, index < k ->
    arr_get (patients (heapify_up heap index)) k = arr_get (patients heap) k.
Proof.
  apply (heapify_up_ind (fun heap index r =>
    wf_heap heap -> 0 <= index < size heap ->
    forall k, index < k -> arr_get (patients r) k = arr_get (patients heap) k));
    clear heap index.
  - reflexivity.
  - intros heap index Hg heap' IH Hwf Hi k Hk. subst heap'.
    apply up_guard_true in Hg as [Hpos _].
    pose proof Hwf as (Hsz & Hlen & Hcap).
    destruct (parent_of_child index) as [Hp _]; [unfold INT_MAX in *; lia|].
    rewrite IH; [| apply wf_heap_swap; assumption | rewrite size_swap; lia | lia].
    apply get_swap_other; lia.
Qed.

Lemma heapify_down_rec_outside fuel : forall heap index,
  wf_heap heap -> 0 <= index < size heap ->
  forall k, k < index \/ size heap <= k ->
    arr_get (patients (heapify_down_rec fuel heap index)) k
    = arr_get (patients heap) k.
Proof.
  induction fuel as [|fuel IH]; intros heap index Hwf Hi k Hk; simpl;
    [reflexivity|].
  pose proof Hwf as (Hsz & Hlen & Hcap).
  destruct (smallest_of_spec heap index) as [[Hs|(Hc & Hs & _)] _];
    [lia | lia | rewrite Hs, Z.eqb_refl; reflexivity |].
  destruct (negb (smallest_of heap index =? index)); [|reflexivity].
  unfold child_of in Hc.
  rewrite IH by (rewrite ?size_swap; auto using wf_heap_swap; lia).
  apply get_swap_other; lia.
Qed.

(** X2. On a well-formed heap, [heapify_up] from a slot in use only
    rearranges records: the size, the capacity and the allocation stay,
    the records in use are the same ones, and no slot beyond [index] is
    touched. *)
Theorem heapify_up_rearranges_ancestors (heap : MinHeap) (index : Z) :
  wf_heap heap -> 0 <= index < size heap ->
  size (heapify_up heap index) = size heap
  /\ capacity (heapify_up heap index) = capacity heap
  /\ length (patients (heapify_up heap index)) = length (patients heap)
  /\ heap_contents (heapify_up heap index) ≡ₚ heap_contents heap
  /\ (forall k, index < k ->
        arr_get (patients (heapify_up heap index)) k
        = arr_get (patients heap) k).
Proof.
  intros Hwf Hi.
  destruct (heapify_up_frame heap index) as (Hs & Hc & Hl).
  split; [assumption|]. split; [assumption|]. split; [assumption|].
  split; [apply heapify_up_contents; assumption|].
  apply heapify_up_above; assumption.
Qed.

(** X3. On a well-formed heap, [heapify_down] from a slot in use only
    rearranges records: the size, the capacity and the allocation stay,
    the records in use are the same ones, and neither a slot before
    [index] nor a slot outside the heap is touched. *)
Theorem heapify_down_rearranges_descendants (heap : MinHeap) (index : Z) :
  wf_heap heap -> 0 <= index < size heap ->
  size (heapify_down heap index) = size heap
  /\ capacity (heapify_down heap index) = capacity heap
  /\ length (patients (heapify_down heap index)) = length (patients heap)
  /\ heap_contents (heapify_down heap index) ≡ₚ heap_contents heap
  /\ (forall k, k < index \/ size heap <= k ->
        arr_get (patients (heapify_down heap index)) k
        = arr_get (patients heap) k).
Proof.
  intros Hwf Hi.
  split; [apply heapify_down_size|]. split; [apply heapify_down_capacity|].
  split; [apply heapify_down_rec_frame|].
  split; [apply heapify_down_contents; assumption|].
  intros k Hk. apply heapify_down_rec_outside; assumption.
Qed.

Lemma heapify_up_rearranges_ancestors_witness :
  wf_heap tie_heap /\ 0 <= 2 < size tie_heap
  /\ heap_contents (heapify_up tie_heap 2) ≡ₚ heap_contents tie_heap
  /\ arr_get (patients (heapify_up tie_heap 2)) 3 = arr_get (patients tie_heap) 3.
Proof.
  assert (Hi : 0 <= 2 < size tie_heap) by (simpl; lia).
  split; [exact wf_tie_heap|]. split; [exact Hi|].
  pose proof (heapify_up_rearranges_ancestors tie_heap 2 wf_tie_heap Hi) as H.
  split; [exact (proj1 (proj2 (proj2 (proj2 H))))|].
  exact (proj2 (proj2 (proj2 (proj2 H))) 3 ltac:(lia)).
Defined.

Lemma heapify_down_rearranges_descendants_witness :
  wf_heap tie_heap /\ 0 <= 1 < size tie_heap
  /\ heap_contents (heapify_down tie_heap 1) ≡ₚ heap_contents tie_heap
  /\ arr_get (patients (heapify_down tie_heap 1)) 0 = arr_get (patients tie_heap) 0.
Proof.
  assert (Hi : 0 <= 1 < size tie_heap) by (simpl; lia).
  split; [exact wf_tie_heap|]. split; [exact Hi|].
  pose proof (heapify_down_rearranges_descendants tie_heap 1 wf_tie_heap Hi) as H.
  split; [exact (proj1 (proj2 (proj2 (proj2 H))))|].
  exact (proj2 (proj2 (proj2 (proj2 H))) 0 ltac:(lia)).
Defined.

(** X4. On a well-formed heap, [heapify_down] from a slot in use obeys
    the equation of the C function: it stops when [smallest] is the slot
    itself and otherwise swaps and continues from [smallest].  It makes
    at most [size heap - index] calls: any larger amount of fuel gives
    the same heap. *)
Theorem heapify_down_terminates (heap : MinHeap) (index : Z) :
  wf_heap heap -> 0 <= index < size heap ->
  heapify_down heap index =
  (if smallest_of heap index =? index then heap
   else heapify_down (swap heap index (smallest_of heap index))
                     (smallest_of heap index))
  /\ index <= smallest_of heap index < size heap
  /\ (forall fuel, size heap - index <= Z.of_nat fuel ->
        heapify_down_rec fuel heap index = heapify_down heap index).
Proof.
  intros Hwf Hi. pose proof Hwf as (Hsz & Hlen & Hcap).
  split; [|split].
  - rewrite heapify_down_eq by assumption. cbv zeta.
    destruct (smallest_of heap index =? index); reflexivity.
  - destruct (smallest_of_spec heap index) as [[Hs|(Hc & Hs & _)] _];
      [lia | lia | lia | unfold child_of in Hc; lia].
  - intros fuel Hfuel. unfold heapify_down.
    apply heapify_down_rec_fuel; assumption || lia.
Qed.

Lemma heapify_down_terminates_witness :
  wf_heap tie_heap /\ 0 <= 0 < size tie_heap
  /\ 0 <= smallest_of tie_heap 0 < size tie_heap
  /\ heapify_down_rec 100 tie_heap 0 = heapify_down tie_heap 0.
Proof.
  assert (Hi : 0 <= 0 < size tie_heap) by (simpl; lia).
  split; [exact wf_tie_heap|]. split; [exact Hi|].
  pose proof (heapify_down_terminates tie_heap 0 wf_tie_heap Hi) as H.
  split; [exact (proj1 (proj2 H))|].
  exact (proj2 (proj2 H) 100%nat ltac:(simpl; lia)).
Defined.

(** X5. A heap already in heap order is left as it is by [heapify_up] and
    by [heapify_down], from any slot in use. *)
Theorem heapify_keeps_ordered_heap (heap : MinHeap) (index : Z) :
  wf_heap heap -> heap_order heap -> 0 <= index < size heap ->
  heapify_up heap index = heap /\ heapify_down heap index = heap.
Proof.
  intros Hwf Hord Hi. pose proof Hwf as (Hsz & Hlen & Hcap).
  rewrite heap_order_edges in Hord. split.
  - rewrite heapify_up_eq.
    destruct (up_guard heap index) eqn:Hg; [|reflexivity].
    apply up_guard_true in Hg as [Hpos Hlt].
    destruct (parent_of_child index) as [Hp Hc]; [unfold INT_MAX in *; lia|].
    specialize (Hord (parent_of index) index ltac:(lia) Hc ltac:(lia)). lia.
  - rewrite heapify_down_eq by assumption. cbv zeta.
    destruct (smallest_of_spec heap index) as [[Hs|(Hc & Hs & Hlt)] _];
      [lia | lia | rewrite Hs, Z.eqb_refl; reflexivity |].
    specialize (Hord index (smallest_of heap index) ltac:(lia) Hc Hs). lia.
Qed.

Lemma heapify_keeps_ordered_heap_witness :
  wf_heap tie_heap /\ heap_order tie_heap /\ 0 <= 3 < size tie_heap
  /\ heapify_up tie_heap 3 = tie_heap /\ heapify_down tie_heap 3 = tie_heap.
Proof.
  assert (Hord : heap_order tie_heap)
    by (apply heap_order_b_true; vm_compute; reflexivity).
  assert (Hi : 0 <= 3 < size tie_heap) by (simpl; lia).
  split; [exact wf_tie_heap|]. split; [exact Hord|]. split; [exact Hi|].
  exact (heapify_keeps_ordered_heap tie_heap 3 wf_tie_heap Hord Hi).
Defined.

(** X6. Inserting a record into a well-formed heap in order that has a free
    slot and extracting right away returns a record whose priority is at
    most the one inserted and at most every priority of before, and the
    heap holds again as many records as before; the record returned and
    the records left are the record inserted and the records of before.
    If the inserted record is strictly more urgent than every record of
    before, it is the one returned and the heap holds the records of
    before. *)
Theorem insert_then_extract_min (heap : MinHeap) (p : Patient) :
  wf_heap heap -> heap_order heap -> size heap < capacity heap ->
  let '(q, heap') := extract_min (fst (insert_patient_to_heap heap p)) in
  priority_le q p
  /\ Forall (priority_le q) (heap_contents heap)
  /\ q :: heap_contents heap' ≡ₚ p :: heap_contents heap
  /\ size heap' = size heap
  /\ heap_order heap'
  /\ (Forall (fun r => priority_level p < priority_level r) (heap_contents heap) ->
      q = p /\ heap_contents heap' ≡ₚ heap_contents heap).
Proof.
  intros Hwf Hord Hroom. pose proof Hwf as (Hsz & _ & _).
  destruct (insert_room_spec heap p Hwf Hroom)
    as (Hwf1 & Hs1 & _ & Hperm1 & Hord1).
  specialize (Hord1 Hord).
  set (heap1 := fst (insert_patient_to_heap heap p)) in *.
  pose proof (extract_min_spec heap1 Hwf1 ltac:(lia)) as Hex.
  pose proof (root_le_contents heap1 Hwf1 Hord1) as Hroot.
  destruct (extract_min heap1) as [q heap'].
  destruct Hex as (Hq & _ & Hs2 & _ & Hperm2 & Hord2). rewrite <- Hq in Hroot.
  rewrite Hperm1 in Hroot. apply Forall_cons in Hroot as [Hqp Hrest].
  assert (Hperm : q :: heap_contents heap' ≡ₚ p :: heap_contents heap)
    by (rewrite <- Hperm2, Hperm1; reflexivity).
  split; [assumption|]. split; [assumption|]. split; [assumption|].
  split; [lia|]. split; [auto|].
  intros Hstrict.
  assert (Hin : q ∈ p :: heap_contents heap)
    by (rewrite <- Hperm; left).
  assert (q = p) as ->.
  { apply elem_of_cons in Hin as [?|Hin]; [assumption|].
    rewrite Forall_forall in Hstrict. specialize (Hstrict q Hin).
    unfold priority_le in Hqp. lia. }
  split; [reflexivity|]. apply (Permutation_cons_inv Hperm).
Qed.

Lemma wf_room_heap : wf_heap room_heap.
Proof. unfold wf_heap, INT_MAX. vm_compute. intuition discriminate. Qed.

Lemma room_heap_order : heap_order room_heap.
Proof. apply heap_order_b_true. vm_compute. reflexivity. Qed.

Lemma insert_then_extract_min_witness :
  wf_heap room_heap /\ heap_order room_heap
  /\ size room_heap < capacity room_heap
  /\ let '(q, heap') :=
       extract_min (fst (insert_patient_to_heap room_heap (patient "New" 0 8))) in
     priority_le q (patient "New" 0 8)
     /\ Forall (priority_le q) (heap_contents room_heap)
     /\ q :: heap_contents heap' ≡ₚ patient "New" 0 8 :: heap_contents room_heap
     /\ size heap' = size room_heap
     /\ heap_order heap'
     /\ (Forall (fun r => priority_level (patient "New" 0 8) < priority_level r)
                (heap_contents room_heap) ->
         q = patient "New" 0 8 /\ heap_contents heap' ≡ₚ heap_contents room_heap).
Proof.
  assert (Hroom : size room_heap < capacity room_heap)
    by (vm_compute; reflexivity).
  split; [exact wf_room_heap|]. split; [exact room_heap_order|].
  split; [exact Hroom|].
  exact (insert_then_extract_min room_heap (patient "New" 0 8)
           wf_room_heap room_heap_order Hroom).
Defined.

Lemma insert_all_overflow ps : forall heap,
  wf_heap heap -> heap_order heap ->
  let heap' := insert_all ps heap in
  wf_heap heap' /\ heap_order heap'
  /\ capacity heap' = capacity heap
  /\ size heap' = Z.min (capacity heap) (size heap + Z.of_nat (length ps))
  /\ heap_contents heap'
     ≡ₚ take (Z.to_nat (capacity heap - size heap)) ps ++ heap_contents heap.
Proof.
  induction ps as [|p ps IH]; intros heap Hwf Hord; cbv zeta.
  - pose proof Hwf as (Hsz & _ & _). simpl. rewrite take_nil.
    split; [assumption|]. split; [assumption|]. split; [reflexivity|].
    split; [lia | reflexivity].
  - pose proof Hwf as (Hsz & _ & _).
    change (insert_all (p :: ps) heap)
      with (insert_all ps (fst (insert_patient_to_heap heap p))).
    destruct (Z.eq_dec (size heap) (capacity heap)) as [Hfull|Hroom].
    + rewrite insert_full by assumption. cbn [fst].
      destruct (IH heap Hwf Hord) as (Hwf' & Hord' & Hc & Hs & Hperm).
      split; [assumption|]. split; [assumption|]. split; [assumption|].
      split; [simpl length; lia|].
      rewrite Hperm. replace (capacity heap - size heap) with 0 by lia.
      reflexivity.
    + destruct (insert_room_spec heap p Hwf ltac:(lia))
        as (Hwf1 & Hs1 & Hc1 & Hperm1 & Hord1).
      destruct (IH _ Hwf1 (Hord1 Hord)) as (Hwf' & Hord' & Hc & Hs & Hperm).
      split; [assumption|]. split; [assumption|]. split; [congruence|].
      split; [simpl length; lia|].
      rewrite Hperm, Hperm1, Hc1, Hs1.
      replace (Z.to_nat (capacity heap - size heap))
        with (S (Z.to_nat (capacity heap - (size heap + 1)))) by lia.
      simpl. symmetry. apply Permutation_middle.
Qed.

(** X7. Inserting a list of records one after the other into the empty
    heap keeps as many of the first records as the capacity allows and
    drops every later one: the heap holds the first [cap] records of the
    list, in heap order. *)
Theorem insert_all_keeps_first (cap : Z) (ps : list Patient) :
  0 <= cap -> 2 * cap <= INT_MAX ->
  let heap := insert_all ps (create_heap cap) in
  heap_contents heap ≡ₚ take (Z.to_nat cap) ps
  /\ size heap = Z.min cap (Z.of_nat (length ps))
  /\ capacity heap = cap
  /\ heap_order heap.
Proof.
  intros H0 Hmax. cbv zeta.
  destruct (insert_all_overflow ps (create_heap cap))
    as (_ & Hord & Hc & Hs & Hperm);
    [auto using wf_create_heap | apply create_heap_order |].
  cbn [create_heap size capacity] in *.
  split; [|split; [lia|split; assumption]].
  rewrite Hperm, Z.sub_0_r. unfold heap_contents. simpl.
  rewrite app_nil_r. reflexivity.
Qed.

Lemma insert_all_keeps_first_witness :
  0 <= 3 /\ 2 * 3 <= INT_MAX
  /\ heap_contents (insert_all sample_patients (create_heap 3))
     ≡ₚ take (Z.to_nat 3) sample_patients
  /\ size (insert_all sample_patients (create_heap 3))
     = Z.min 3 (Z.of_nat (length sample_patients)).
Proof.
  assert (H0 : 0 <= 3) by lia.
  assert (Hmax : 2 * 3 <= INT_MAX) by (unfold INT_MAX; lia).
  split; [exact H0|]. split; [exact Hmax|].
  pose proof (insert_all_keeps_first 3 sample_patients H0 Hmax) as H.
  split; [exact (proj1 H) | exact (proj1 (proj2 H))].
Defined.

(** * Further properties of the triage system *)


Lemma treat_next_patient_heap system :
  waiting_list (fst (treat_next_patient system)) =
  snd (extract_min (waiting_list system)).
Proof.
  unfold treat_next_patient.
  destruct (Z.eqb_spec (size (waiting_list system)) 0) as [Hz|Hnz].
  - rewrite extract_min_empty by lia. reflexivity.
  - destruct (extract_min (waiting_list system)).
    destruct (log_size (treated_log system) <? log_capacity (treated_log system));
      reflexivity.
Qed.

Lemma treat_next_patient_served system :
  served (snd (treat_next_patient system)) =
  if size (waiting_list system) =? 0 then []
  else [fst (extract_min (waiting_list system))].
Proof.
  unfold treat_next_patient.
  destruct (size (waiting_list system) =? 0); [reflexivity|].
  destruct (extract_min (waiting_list system)).
  destruct (log_size (treated_log system) <? log_capacity (treated_log system));
    reflexivity.
Qed.

Lemma extract_min_root heap :
  0 < size heap -> fst (extract_min heap) = arr_get (patients heap) 0.
Proof.
  intros Hpos. unfold extract_min.
  destruct (Z.leb_spec (size heap) 0); [lia|].
  destruct (size heap =? 1); reflexivity.
Qed.

Lemma call_heap system c :
  wf_heap (waiting_list system) ->
  wf_heap (waiting_list (fst (call system c)))
  /\ capacity (waiting_list (fst (call system c))) = capacity (waiting_list system)
  /\ (heap_order (waiting_list system) ->
      heap_order (waiting_list (fst (call system c)))).
Proof.
  intros Hwf. pose proof Hwf as (Hsz & _ & _).
  destruct c as [nm priority|]; cbn [call].
  - rewrite add_patient_heap.
    split; [apply insert_wf; assumption|].
    split; [|apply insert_order; assumption].
    destruct (Z.eq_dec (size (waiting_list system)) (capacity (waiting_list system))).
    + rewrite insert_full by assumption. reflexivity.
    + apply insert_room_spec; [assumption | lia].
  - rewrite treat_next_patient_heap.
    split; [apply extract_min_wf; assumption|].
    split; [|apply extract_min_order; assumption].
    destruct (Z_le_gt_dec (size (waiting_list system)) 0).
    + rewrite extract_min_empty by assumption. reflexivity.
    + pose proof (extract_min_spec _ Hwf ltac:(lia)) as H.
      destruct (extract_min (waiting_list system)). simpl. tauto.
Qed.

Lemma calls_heap cs : forall system,
  wf_heap (waiting_list system) -> heap_order (waiting_list system) ->
  wf_heap (waiting_list (fst (calls cs system)))
  /\ heap_order (waiting_list (fst (calls cs system)))
  /\ capacity (waiting_list (fst (calls cs system)))
     = capacity (waiting_list system).
Proof.
  induction cs as [|c cs IH]; intros system Hwf Hord.
  - simpl. auto.
  - rewrite calls_cons. cbn [fst].
    destruct (call_heap system c Hwf) as (Hwf1 & Hc1 & Hord1).
    destruct (IH _ Hwf1 (Hord1 Hord)) as (Hwf2 & Hord2 & Hc2).
    split; [assumption|]. split; [assumption | congruence].
Qed.

(** X8. Whatever calls are made on a system created with a capacity whose
    child indices fit a C [int], the waiting list stays a well-formed heap
    in heap order with between 0 and [cap] records and the capacity it was
    created with, and the log stays within its capacity [cap]. *)
Theorem system_invariants (cap : Z) (cs : list Call) :
  0 <= cap -> 2 * cap <= INT_MAX ->
  let system := fst (calls cs (create_triage_system cap)) in
  wf_heap (waiting_list system)
  /\ heap_order (waiting_list system)
  /\ 0 <= size (waiting_list system) <= cap
  /\ capacity (waiting_list system) = cap
  /\ wf_log (treated_log system)
  /\ 0 <= log_size (treated_log system) <= cap
  /\ log_capacity (treated_log system) = cap.
Proof.
  intros H0 Hmax. cbv zeta.
  destruct (calls_heap cs (create_triage_system cap)) as (Hwf & Hord & Hc);
    [apply wf_create_heap; assumption | apply create_heap_order |].
  destruct (calls_log cs (create_triage_system cap)) as (Hwfl & Hcl & _);
    [apply wf_log_create; unfold INT_MAX in *; lia|].
  cbn [create_triage_system waiting_list treated_log capacity create_heap
       log_capacity] in Hc, Hcl.
  pose proof Hwf as (Hsz & _ & _). pose proof Hwfl as (Hszl & _ & _).
  split; [assumption|]. split; [assumption|]. split; [lia|].
  split; [assumption|]. split; [assumption|]. split; [lia | assumption].
Qed.

Lemma system_invariants_witness :
  0 <= 1 /\ 2 * 1 <= INT_MAX
  /\ heap_order (waiting_list (fst (calls two_services (create_triage_system 1))))
  /\ 0 <= log_size (treated_log (fst (calls two_services (create_triage_system 1))))
     <= 1.
Proof.
  assert (H0 : 0 <= 1) by lia.
  assert (Hmax : 2 * 1 <= INT_MAX) by (unfold INT_MAX; lia).
  split; [exact H0|]. split; [exact Hmax|].
  pose proof (system_invariants 1 two_services H0 Hmax) as H.
  split; [exact (proj1 (proj2 H))|].
  exact (proj1 (proj2 (proj2 (proj2 (proj2 (proj2 H)))))).
Defined.

(** X9. In a system reached by any calls from a fresh one, when patients
    wait, [treat_next_patient] announces exactly one patient: the root of
    the heap, whose priority is at most the priority of every waiting
    patient; that patient leaves the waiting list, the others stay, and
    this holds whether or not the log has room. *)
Theorem treat_next_patient_most_urgent (cap : Z) (cs : list Call) :
  0 <= cap -> 2 * cap <= INT_MAX ->
  let system := fst (calls cs (create_triage_system cap)) in
  0 < size (waiting_list system) ->
  let p := arr_get (patients (waiting_list system)) 0 in
  let system' := fst (treat_next_patient system) in
  served (snd (treat_next_patient system)) = [p]
  /\ Forall (priority_le p) (heap_contents (waiting_list system))
  /\ heap_contents (waiting_list system)
     ≡ₚ p :: heap_contents (waiting_list system')
  /\ size (waiting_list system') = size (waiting_list system) - 1.
Proof.
  intros H0 Hmax. cbv zeta. intros Hpos.
  destruct (calls_heap cs (create_triage_system cap)) as (Hwf & Hord & _);
    [apply wf_create_heap; assumption | apply create_heap_order |].
  set (system := fst (calls cs (create_triage_system cap))) in *.
  rewrite treat_next_patient_served, treat_next_patient_heap.
  destruct (Z.eqb_spec (size (waiting_list system)) 0); [lia|].
  rewrite extract_min_root by assumption.
  pose proof (extract_min_spec _ Hwf Hpos) as Hex.
  destruct (extract_min (waiting_list system)) as [q heap].
  destruct Hex as (-> & _ & Hs & _ & Hperm & _). cbn [snd].
  split; [reflexivity|].
  split; [apply root_le_contents; assumption|]. split; assumption.
Qed.

Lemma treat_next_patient_most_urgent_witness :
  0 <= 20 /\ 2 * 20 <= INT_MAX
  /\ 0 < size (waiting_list (fst (calls sample_calls (create_triage_system 20))))
  /\ served (snd (treat_next_patient
                    (fst (calls sample_calls (create_triage_system 20)))))
     = [arr_get (patients (waiting_list
                   (fst (calls sample_calls (create_triage_system 20))))) 0].
Proof.
  assert (H0 : 0 <= 20) by lia.
  assert (Hmax : 2 * 20 <= INT_MAX) by (unfold INT_MAX; lia).
  assert (Hpos : 0 < size (waiting_list
                   (fst (calls sample_calls (create_triage_system 20)))))
    by (vm_compute; reflexivity).
  split; [exact H0|]. split; [exact Hmax|]. split; [exact Hpos|].
  exact (proj1 (treat_next_patient_most_urgent 20 sample_calls H0 Hmax Hpos)).
Defined.

(** One call keeps the identifiers of the waiting and treated patients
    distinct and below the counter. *)
Lemma call_ids system c (done : list Patient) :
  wf_heap (waiting_list system) ->
  1 <= next_patient_id system ->
  next_patient_id system + Z.of_nat (additions [c]) <= INT_MAX ->
  Forall (fun q => 1 <= patient_id q < next_patient_id system)
         (heap_contents (waiting_list system) ++ done) ->
  NoDup (map patient_id (heap_contents (waiting_list system) ++ done)) ->
  let system' := fst (call system c) in
  let done' := done ++ served (snd (call system c)) in
  next_patient_id system' = next_patient_id system + Z.of_nat (additions [c])
  /\ Forall (fun q => 1 <= patient_id q < next_patient_id system')
            (heap_contents (waiting_list system') ++ done')
  /\ NoDup (map patient_id (heap_contents (waiting_list system') ++ done')).
Proof.
  intros Hwf Hnext Hmax Hall Hnd. cbv zeta.
  pose proof Hwf as (Hsz & _ & _).
  destruct c as [nm priority|]; cbn [call additions] in *.
  - rewrite add_patient_next, add_patient_heap, add_patient_served, app_nil_r.
    rewrite int_wrap_small by (unfold INT_MIN, INT_MAX in *; lia).
    split; [lia|].
    assert (Hweak : Forall (fun q => 1 <= patient_id q < next_patient_id system + 1)
                           (heap_contents (waiting_list system) ++ done))
      by (eapply Forall_impl; [exact Hall | simpl; intros; lia]).
    destruct (Z.eq_dec (size (waiting_list system)) (capacity (waiting_list system)))
      as [Hfull|Hroom].
    + rewrite insert_full by assumption. cbn [fst]. auto.
    + destruct (insert_room_spec (waiting_list system)
                  (new_patient system nm priority) Hwf ltac:(lia))
        as (_ & _ & _ & Hperm & _).
      set (heap' := fst (insert_patient_to_heap _ _)) in *.
      assert (Hp : heap_contents heap' ++ done
                   ≡ₚ new_patient system nm priority
                      :: (heap_contents (waiting_list system) ++ done))
        by (rewrite Hperm; reflexivity).
      split.
      * rewrite Hp. constructor; [simpl; lia | assumption].
      * rewrite (Permutation_map patient_id Hp). simpl. constructor; [|assumption].
        intros Hin. apply list_elem_of_In, in_map_iff in Hin as (q & Hid & Hq).
        rewrite Forall_forall in Hall.
        specialize (Hall q ltac:(apply list_elem_of_In; exact Hq)).
        simpl in Hid. lia.
  - rewrite treat_next_patient_next, treat_next_patient_heap,
      treat_next_patient_served.
    split; [lia|].
    destruct (Z.eqb_spec (size (waiting_list system)) 0) as [Hz|Hnz].
    + rewrite extract_min_empty by lia. cbn [snd]. rewrite app_nil_r. auto.
    + pose proof (extract_min_spec _ Hwf ltac:(lia)) as Hex.
      destruct (extract_min (waiting_list system)) as [p heap'].
      destruct Hex as (_ & _ & _ & _ & Hperm & _). cbn [fst snd].
      assert (Hp : heap_contents heap' ++ done ++ [p]
                   ≡ₚ heap_contents (waiting_list system) ++ done).
      { rewrite Hperm. simpl. rewrite app_assoc.
        rewrite <- Permutation_cons_append. reflexivity. }
      split.
      * rewrite Hp. assumption.
      * rewrite (Permutation_map patient_id Hp). assumption.
Qed.

Lemma calls_ids cs : forall system (done : list Patient),
  wf_heap (waiting_list system) ->
  1 <= next_patient_id system ->
  next_patient_id system + Z.of_nat (additions cs) <= INT_MAX ->
  Forall (fun q => 1 <= patient_id q < next_patient_id system)
         (heap_contents (waiting_list system) ++ done) ->
  NoDup (map patient_id (heap_contents (waiting_list system) ++ done)) ->
  let system' := fst (calls cs system) in
  let done' := done ++ served (snd (calls cs system)) in
  next_patient_id system' = next_patient_id system + Z.of_nat (additions cs)
  /\ Forall (fun q => 1 <= patient_id q < next_patient_id system')
            (heap_contents (waiting_list system') ++ done')
  /\ NoDup (map patient_id (heap_contents (waiting_list system') ++ done')).
Proof.
  induction cs as [|c cs IH]; intros system done Hwf Hnext Hmax Hall Hnd;
    cbv zeta.
  - simpl. rewrite app_nil_r, Z.add_0_r. auto.
  - rewrite calls_cons. cbn [fst snd].
    assert (Hc : additions (c :: cs) = (additions [c] + additions cs)%nat)
      by (destruct c; reflexivity).
    rewrite Hc in *.
    destruct (call_ids system c done Hwf Hnext ltac:(lia) Hall Hnd)
      as (Hn1 & Hall1 & Hnd1).
    destruct (call_heap system c Hwf) as (Hwf1 & _ & _).
    destruct (IH (fst (call system c)) (done ++ served (snd (call system c)))
                 Hwf1 ltac:(lia) ltac:(lia) Hall1 Hnd1) as (Hn2 & Hall2 & Hnd2).
    rewrite served_app. rewrite <- (app_assoc done) in Hall2, Hnd2.
    split; [lia|]. split; assumption.
Qed.

(** X10. In a system created with a capacity whose child indices fit a C
    [int], as long as fewer than [INT_MAX] patients were added, the
    patients waiting and the patients treated so far all carry different
    identifiers, each between 1 and the number of [add_patient] calls made;
    in particular the record [empty_patient] is never announced as
    treated. *)
Theorem identifiers_are_unique (cap : Z) (cs : list Call) :
  0 <= cap -> 2 * cap <= INT_MAX -> Z.of_nat (additions cs) < INT_MAX ->
  let system := fst (calls cs (create_triage_system cap)) in
  let treated := served (snd (calls cs (create_triage_system cap))) in
  NoDup (map patient_id (heap_contents (waiting_list system) ++ treated))
  /\ Forall (fun q => 1 <= patient_id q <= Z.of_nat (additions cs))
            (heap_contents (waiting_list system) ++ treated)
  /\ ~ In empty_patient treated.
Proof.
  intros H0 Hmax Hadd. cbv zeta.
  destruct (calls_ids cs (create_triage_system cap) [])
    as (Hn & Hall & Hnd).
  - apply wf_create_heap; assumption.
  - simpl. lia.
  - simpl. lia.
  - unfold heap_contents. simpl. constructor.
  - unfold heap_contents. simpl. constructor.
  - rewrite app_nil_l in Hall, Hnd.
    cbn [create_triage_system next_patient_id] in Hn.
    split; [assumption|]. split.
    + eapply Forall_impl; [exact Hall|]. simpl. intros q Hq. lia.
    + intros Hin. rewrite Forall_forall in Hall.
      specialize (Hall empty_patient).
      assert (Hel : empty_patient
                    ∈ heap_contents (waiting_list
                                       (fst (calls cs (create_triage_system cap))))
                      ++ served (snd (calls cs (create_triage_system cap)))).
      { apply elem_of_app. right. apply list_elem_of_In. exact Hin. }
      specialize (Hall Hel). simpl in Hall. lia.
Qed.

Lemma identifiers_are_unique_witness :
  0 <= 1 /\ 2 * 1 <= INT_MAX /\ Z.of_nat (additions two_services) < INT_MAX
  /\ NoDup (map patient_id
              (heap_contents (waiting_list
                                (fst (calls two_services (create_triage_system 1))))
               ++ served (snd (calls two_services (create_triage_system 1))))).
Proof.
  assert (H0 : 0 <= 1) by lia.
  assert (Hmax : 2 * 1 <= INT_MAX) by (unfold INT_MAX; lia).
  assert (Hadd : Z.of_nat (additions two_services) < INT_MAX)
    by (unfold INT_MAX; simpl; lia).
  split; [exact H0|]. split; [exact Hmax|]. split; [exact Hadd|].
  exact (proj1 (identifiers_are_unique 1 two_services H0 Hmax Hadd)).
Defined.



(** X12. When patients wait and the log has room, [treat_next_patient]
    moves the root of the heap to the end of the log: it announces that
    patient and nothing else, the waiting list loses exactly that patient,
    the log gains it as its last entry, and the identifier counter stays. *)
Theorem treat_next_patient_moves_to_log (system : TriageSystem) :
  wf_heap (waiting_list system) -> wf_log (treated_log system) ->
  0 < size (waiting_list system) ->
  log_size (treated_log system) < log_capacity (treated_log system) ->
  let p := arr_get (patients (waiting_list system)) 0 in
  let system' := fst (treat_next_patient system) in
  snd (treat_next_patient system) = [Treating p]
  /\ heap_contents (waiting_list system)
     ≡ₚ p :: heap_contents (waiting_list system')
  /\ size (waiting_list system') = size (waiting_list system) - 1
  /\ log_contents (treated_log system') = log_contents (treated_log system) ++ [p]
  /\ log_size (treated_log system') = log_size (treated_log system) + 1
  /\ next_patient_id system' = next_patient_id system.
Proof.
  intros Hwf Hwfl Hpos Hroom. cbv zeta.
  pose proof (extract_min_spec _ Hwf Hpos) as Hex.
  unfold treat_next_patient.
  destruct (Z.eqb_spec (size (waiting_list system)) 0); [lia|].
  destruct (extract_min (waiting_list system)) as [p heap].
  destruct Hex as (-> & _ & Hs & _ & Hperm & _).
  destruct (Z.ltb_spec (log_size (treated_log system))
                       (log_capacity (treated_log system))); [|lia].
  cbn [fst snd waiting_list treated_log next_patient_id].
  destruct (log_append_spec (treated_log system)
              (arr_get (patients (waiting_list system)) 0) Hwfl Hroom)
    as [_ Happ].
  split; [reflexivity|]. split; [assumption|]. split; [assumption|].
  split; [assumption|]. split; [|reflexivity].
  destruct Hwfl as (Hszl & _ & Hcl). unfold log_append. cbn [log_size].
  apply int_wrap_small. unfold INT_MIN, INT_MAX in *. lia.
Qed.

Lemma treat_next_patient_moves_to_log_witness :
  wf_heap (waiting_list busy_system) /\ wf_log (treated_log busy_system)
  /\ 0 < size (waiting_list busy_system)
  /\ log_size (treated_log busy_system) < log_capacity (treated_log busy_system)
  /\ snd (treat_next_patient busy_system)
     = [Treating (arr_get (patients (waiting_list busy_system)) 0)]
  /\ log_contents (treated_log (fst (treat_next_patient busy_system)))
     = log_contents (treated_log busy_system)
       ++ [arr_get (patients (waiting_list busy_system)) 0].
Proof.
  assert (Hwf : wf_heap (waiting_list busy_system))
    by (unfold wf_heap, INT_MAX; vm_compute; intuition discriminate).
  assert (Hwfl : wf_log (treated_log busy_system))
    by (unfold wf_log, INT_MAX; vm_compute; intuition discriminate).
  assert (Hpos : 0 < size (waiting_list busy_system))
    by (vm_compute; reflexivity).
  assert (Hroom : log_size (treated_log busy_system)
                  < log_capacity (treated_log busy_system))
    by (vm_compute; reflexivity).
  split; [exact Hwf|]. split; [exact Hwfl|]. split; [exact Hpos|].
  split; [exact Hroom|].
  pose proof (treat_next_patient_moves_to_log busy_system Hwf Hwfl Hpos Hroom)
    as H.
  split; [exact (proj1 H)|].
  exact (proj1 (proj2 (proj2 (proj2 H)))).
Defined.

(** X13. [view_waiting_list] and [treat_next_patient] agree.  With an empty
    waiting list the one prints that the list is empty and the other that
    there is nobody to treat.  With patients waiting, the one prints their
    number and, as next to be treated, the very patient that the other
    then announces as treated. *)
Theorem view_waiting_list_shows_next (system : TriageSystem) :
  (size (waiting_list system) = 0 ->
   view_waiting_list system
   = [WaitingListHeader; WaitingListEmpty; WaitingListFooter]
   /\ snd (treat_next_patient system) = [NoPatientsToTreat])
  /\ (0 < size (waiting_list system) ->
      exists p,
        view_waiting_list system
        = [WaitingListHeader; WaitingListTotal (size (waiting_list system));
           WaitingListNext p; WaitingListFooter]
        /\ served (snd (treat_next_patient system)) = [p]).
Proof.
  split.
  - intros Hz. unfold view_waiting_list, treat_next_patient. rewrite Hz.
    split; reflexivity.
  - intros Hpos. exists (arr_get (patients (waiting_list system)) 0).
    rewrite treat_next_patient_served. unfold view_waiting_list.
    destruct (Z.eqb_spec (size (waiting_list system)) 0); [lia|].
    rewrite extract_min_root by assumption. split; reflexivity.
Qed.

Lemma view_waiting_list_shows_next_witness :
  0 < size (waiting_list busy_system)
  /\ exists p,
       view_waiting_list busy_system
       = [WaitingListHeader; WaitingListTotal (size (waiting_list busy_system));
          WaitingListNext p; WaitingListFooter]
       /\ served (snd (treat_next_patient busy_system)) = [p].
Proof.
  assert (Hpos : 0 < size (waiting_list busy_system))
    by (vm_compute; reflexivity).
  split; [exact Hpos|].
  exact (proj2 (view_waiting_list_shows_next busy_system) Hpos).
Defined.

Lemma treat_repeatedly n : forall system,
  wf_heap (waiting_list system) ->
  Z.of_nat n <= size (waiting_list system) ->
  served (snd (calls (replicate n CallTreatNext) system))
  = fst (extract_n n (waiting_list system))
  /\ waiting_list (fst (calls (replicate n CallTreatNext) system))
     = snd (extract_n n (waiting_list system)).
Proof.
  induction n as [|n IH]; intros system Hwf Hn; [split; reflexivity|].
  change (replicate (S n) CallTreatNext)
    with (CallTreatNext :: replicate n CallTreatNext).
  rewrite calls_cons. cbn [fst snd call]. rewrite served_app.
  pose proof (extract_min_spec _ Hwf ltac:(lia)) as Hex.
  pose proof (treat_next_patient_heap system) as Hheap.
  pose proof (treat_next_patient_served system) as Hserved.
  destruct (Z.eqb_spec (size (waiting_list system)) 0); [lia|].
  simpl extract_n.
  destruct (extract_min (waiting_list system)) as [p heap].
  destruct Hex as (_ & Hwf1 & Hs1 & _). cbn [fst snd] in Hheap, Hserved.
  rewrite <- Hheap in Hwf1, Hs1.
  destruct (IH (fst (treat_next_patient system)) Hwf1 ltac:(lia)) as [IH1 IH2].
  rewrite Hserved, IH1, IH2, Hheap.
  destruct (extract_n n heap). split; reflexivity.
Qed.

(** X14. Calling [treat_next_patient] as many times as patients wait, on a
    well-formed heap in heap order, announces exactly the waiting
    patients, in non-decreasing order of priority, and leaves the waiting
    list empty. *)
Theorem treating_all_waiting_is_sorted (system : TriageSystem) :
  wf_heap (waiting_list system) -> heap_order (waiting_list system) ->
  let n := Z.to_nat (size (waiting_list system)) in
  let result := calls (replicate n CallTreatNext) system in
  served (snd result) ≡ₚ heap_contents (waiting_list system)
  /\ Sorted priority_le (served (snd result))
  /\ size (waiting_list (fst result)) = 0.
Proof.
  intros Hwf Hord. cbv zeta. pose proof Hwf as (Hsz & _ & _).
  destruct (treat_repeatedly (Z.to_nat (size (waiting_list system))) system
              Hwf ltac:(lia)) as [Hserved Hheap].
  pose proof (extract_n_spec (Z.to_nat (size (waiting_list system)))
                (waiting_list system) Hwf Hord ltac:(lia)) as Hex.
  rewrite Hserved, Hheap.
  destruct (extract_n _ (waiting_list system)) as [out heap].
  destruct Hex as (Hperm & Hsorted & Hempty). cbn [fst snd].
  split; [assumption|]. split; [|assumption].
  apply StronglySorted_Sorted. assumption.
Qed.

Lemma treating_all_waiting_is_sorted_witness :
  wf_heap (waiting_list busy_system) /\ heap_order (waiting_list busy_system)
  /\ Sorted priority_le
       (served (snd (calls (replicate (Z.to_nat (size (waiting_list busy_system)))
                                      CallTreatNext)
                           busy_system))).
Proof.
  assert (Hwf : wf_heap (waiting_list busy_system))
    by (unfold wf_heap, INT_MAX; vm_compute; intuition discriminate).
  assert (Hord : heap_order (waiting_list busy_system))
    by (apply heap_order_b_true; vm_compute; reflexivity).
  split; [exact Hwf|]. split; [exact Hord|].
  exact (proj1 (proj2 (treating_all_waiting_is_sorted busy_system Hwf Hord))).
Defined.
